(** * The Jsonnet lexer of Pygments: rule tables and scanning engine

    Source: [pygments/lexers/jsonnet.py] (class [JsonnetLexer]).

    Definitions:
    - [Re]: the fragment of Python's [re] pattern language that the
      rule tables use, with a backtracking matcher (greedy repetition,
      leftmost alternative first, lookahead, word boundary);
    - [Jsonnet]: the rule tables, transcribed pattern by pattern from
      [JsonnetLexer.tokens];
    - [Engine]: the stack-based scanner that runs the tables;
    - [Shape]: the shape of the stacks the tables build, and a check
      of every rule against it;
    - [Spec]: the vocabulary of the specification.

    Proofs follow, module by module, and then the properties of the
    lexer, C1 to C10.

    Text is a list of [ascii] characters, that is code points 0..255;
    the character tables of "\s" and "\b" are Python's, restricted to
    that range. *)

From Stdlib Require Import List Bool Arith Lia.
From Stdlib Require Import Strings.Ascii Strings.String.
Import ListNotations.

Local Open Scope list_scope.

(** ** Text *)

Definition text := list ascii.

Definition str (s : string) : text := list_ascii_of_string s.

Definition code (c : ascii) : nat := nat_of_ascii c.

(** ** Regular expressions *)

Module Re.

(** One element of a bracket expression: a single character or an
    inclusive range. *)
Inductive citem :=
| One (c : ascii)
| Range (lo hi : ascii).

(** What a one-character pattern accepts. *)
Inductive cclass :=
| OneOf (items : list citem)     (* [...]  *)
| NoneOf (items : list citem)    (* [^...] *)
| Dot                            (* .  : anything but a newline *)
| DotAll                         (* .  under (?s) *)
| Space.                         (* \s *)

Inductive regex :=
| Lit (s : string)               (* a literal run of characters *)
| Cls (c : cclass)
| Seq (r1 r2 : regex)
| Alt (r1 r2 : regex)            (* r1|r2, r1 tried first *)
| Star (r : regex)               (* r*, greedy *)
| Plus (r : regex)               (* r+, greedy *)
| Opt (r : regex)                (* r?, greedy *)
| Ahead (r : regex)              (* (?=r) *)
| NotAhead (r : regex)           (* (?!r) *)
| WordB.                         (* \b *)

Definition citem_mem (c : ascii) (i : citem) : bool :=
  match i with
  | One d => Ascii.eqb c d
  | Range lo hi => (code lo <=? code c) && (code c <=? code hi)
  end.

(** [str.isspace] on code points 0..255: TAB..CR, FS..US, space, NEL
    and the no-break space. *)
Definition is_space (c : ascii) : bool :=
  let n := code c in
  ((9 <=? n) && (n <=? 13)) || ((28 <=? n) && (n <=? 32))
  || (n =? 133) || (n =? 160).

(** A word character for [\b]: alphanumeric in Unicode's sense, or the
    underscore; on code points 0..255. *)
Definition is_word (c : ascii) : bool :=
  let n := code c in
  ((48 <=? n) && (n <=? 57)) || ((65 <=? n) && (n <=? 90))
  || (n =? 95) || ((97 <=? n) && (n <=? 122))
  || (n =? 170) || (n =? 178) || (n =? 179) || (n =? 181)
  || (n =? 185) || (n =? 186) || ((188 <=? n) && (n <=? 190))
  || ((192 <=? n) && (n <=? 214)) || ((216 <=? n) && (n <=? 246))
  || (248 <=? n).

Definition cclass_mem (cs : cclass) (c : ascii) : bool :=
  match cs with
  | OneOf items => existsb (citem_mem c) items
  | NoneOf items => negb (existsb (citem_mem c) items)
  | Dot => negb (Ascii.eqb c "010")  (* the newline *)
  | DotAll => true
  | Space => is_space c
  end.

(** Strip a literal prefix. *)
Fixpoint strip (p s : text) : option text :=
  match p, s with
  | [], _ => Some s
  | a :: p', b :: s' => if Ascii.eqb a b then strip p' s' else None
  | _ :: _, [] => None
  end.

Definition last_char (prev : option ascii) (p : text) : option ascii :=
  match rev p with
  | c :: _ => Some c
  | [] => prev
  end.

Definition word_opt (c : option ascii) : bool :=
  match c with
  | Some a => is_word a
  | None => false
  end.

Definition is_some {A} (o : option A) : bool :=
  match o with Some _ => true | None => false end.

(** A continuation receives the character before the cursor and the
    text from the cursor on. *)
Definition cont (R : Type) := option ascii -> text -> option R.

(** [r*]: one more round of [body] while it consumes something and
    the rest of the pattern, [k], still succeeds afterwards; [k] alone
    otherwise.  [n] bounds the rounds by the length of the text. *)
Fixpoint star_loop {R} (body : cont R -> cont R) (k : cont R) (n : nat)
  : cont R :=
  fun prev s =>
    match n with
    | 0 => k prev s
    | S n' =>
        match body (fun prev' s' =>
                      if List.length s' <? List.length s
                      then star_loop body k n' prev' s'
                      else None) prev s with
        | Some x => Some x
        | None => k prev s
        end
    end.

(** The backtracking search: [run r k prev s] matches [r] at the head
    of [s] and hands what follows to [k]; the first success in the
    search order is the answer. *)
Fixpoint run {R} (r : regex) (k : cont R) : cont R :=
  fun prev s =>
    match r with
    | Lit l =>
        match strip (str l) s with
        | Some s' => k (last_char prev (str l)) s'
        | None => None
        end
    | Cls cs =>
        match s with
        | c :: s' => if cclass_mem cs c then k (Some c) s' else None
        | [] => None
        end
    | Seq r1 r2 => run r1 (run r2 k) prev s
    | Alt r1 r2 =>
        match run r1 k prev s with
        | Some x => Some x
        | None => run r2 k prev s
        end
    | Star r1 => star_loop (run r1) k (List.length s) prev s
    | Plus r1 =>
        run r1 (fun prev' s' => star_loop (run r1) k (List.length s') prev' s')
            prev s
    | Opt r1 =>
        match run r1 k prev s with
        | Some x => Some x
        | None => k prev s
        end
    | Ahead r1 =>
        if is_some (run r1 (fun _ _ => Some tt) prev s)
        then k prev s else None
    | NotAhead r1 =>
        if is_some (run r1 (fun _ _ => Some tt) prev s)
        then None else k prev s
    | WordB =>
        if xorb (word_opt prev) (word_opt (hd_error s))
        then k prev s else None
    end.

(** [pattern.match(text, pos)]: the text left after the match, if the
    pattern matches at the cursor. *)
Definition match_at (r : regex) (prev : option ascii) (s : text)
  : option text :=
  run r (fun _ s' => Some s') prev s.

(** A pattern that cannot match the empty string. *)
Fixpoint consuming (r : regex) : bool :=
  match r with
  | Lit l => match l with EmptyString => false | String _ _ => true end
  | Cls _ => true
  | Seq r1 r2 => consuming r1 || consuming r2
  | Alt r1 r2 => consuming r1 && consuming r2
  | Star _ => false
  | Plus r1 => consuming r1
  | Opt _ => false
  | Ahead _ => false
  | NotAhead _ => false
  | WordB => false
  end.

(** [after s s' strict]: [s'] is what is left of [s] once a prefix is
    cut off, a non-empty one when [strict] holds. *)
Definition after (s s' : text) (strict : bool) : Prop :=
  (exists p, s = p ++ s') /\
  (strict = true -> List.length s' < List.length s).

(** A step of the search that succeeds did so through its
    continuation, further on in the text. *)
Definition through {R} (f : cont R -> cont R) (strict : bool) : Prop :=
  forall k prev s x,
    f k prev s = Some x ->
    exists prev' s', k prev' s' = Some x /\ after s s' strict.

End Re.

(** ** The rule tables of [JsonnetLexer] *)

Module Jsonnet.
Import Re.

(** The token types the tables name ([pygments.token]), and [Error],
    which only the engine emits. *)
Inductive token_type :=
| Comment | Comment_Single
| Keyword
| Name_Builtin | Name_Function | Name_Variable
| Number_Float
| Operator
| Punctuation
| String_ | String_Doc | String_Escape
| Whitespace
| Error.

Inductive state :=
| root | singlestring | doublestring | array
| local_name | local_value | assert
| function_params | function_args
| object | field_name | double_field_name | single_field_name
| field_name_expr | function_param_default
| field_separator | field_value
| object_assert | object_local_name | object_local_value.

(** The third component of a rule.  A tuple is a sequence of ['#pop']
    and state names; ['#pop'] alone is [Pop 1] and ['#pop:2'] is
    [Pop 2]. *)
Inductive item :=
| pop
| enter (s : state).

Inductive action :=
| Stay
| Push (s : state)
| Pop (n : nat)
| Tuple (items : list item).

Record rule := Rule {
  pattern : regex;
  ttype : token_type;
  new_state : action
}.

Definition newline : ascii := "010".

(** The double quote, as a character and as a one-character string. *)
Definition dq : ascii := "034".
Definition dquote : string := String dq EmptyString.

Definition rx (r : regex) (t : token_type) : rule := Rule r t Stay.

Definition chars (s : string) : list citem := map One (str s).

(** jsonnet_token_chars = "[_A-Za-z0-9]" *)
Definition jsonnet_token_chars : regex :=
  Cls (OneOf [One "_"; Range "A" "Z"; Range "a" "z"; Range "0" "9"]).

(** jsonnet_token = "[_A-Za-z]" + jsonnet_token_chars + "*" *)
Definition jsonnet_token : regex :=
  Seq (Cls (OneOf [One "_"; Range "A" "Z"; Range "a" "z"]))
      (Star jsonnet_token_chars).

(** jsonnet_function_token = jsonnet_token + "(?=\()" *)
Definition jsonnet_function_token : regex :=
  Seq jsonnet_token (Ahead (Lit "(")).

(** The body of both block comments, any run of "[^/]" and of "/"
    not followed by a star: "( [^/] | / (?! \* ) )*". *)
Definition comment_body : regex :=
  Star (Alt (Cls (NoneOf [One "/"])) (Seq (Lit "/") (NotAhead (Lit "*")))).

Definition comments : list rule :=
  [ (* "(//|#).*\n" *)
    rx (Seq (Alt (Lit "//") (Lit "#"))
            (Seq (Star (Cls Dot)) (Cls (OneOf [One newline]))))
       Comment_Single;
    (* "/\*\*" body "\*/" *)
    rx (Seq (Lit "/**") (Seq comment_body (Lit "*/"))) String_Doc;
    (* "/\*" body "\*/" *)
    rx (Seq (Lit "/*") (Seq comment_body (Lit "*/"))) Comment ].

(** Modelled from the spec: [pygments.lexer.words] and the pattern
    optimiser behind its [get()] are not part of the source at hand;
    the pattern they build is taken to be the alternation of the
    listed words, "one of a fixed closed set of reserved words". *)
Fixpoint words (ws : list string) : regex :=
  match ws with
  | [] => NotAhead (Lit EmptyString)
  | [w] => Lit w
  | w :: ws' => Alt (Lit w) (words ws')
  end.

Definition keyword_list : list string :=
  [ "assert"; "else"; "error"; "false"; "for"; "if"; "import";
    "importstr"; "in"; "null"; "tailstrict"; "then"; "self"; "super";
    "true" ]%string.

Definition keywords : regex := words keyword_list.

Definition digit : regex := Cls (OneOf [Range "0" "9"]).

Definition rvalues : list rule :=
  comments ++
  [ (* "@'.*'" *)
    rx (Seq (Lit "@'") (Seq (Star (Cls Dot)) (Lit "'"))) String_;
    (* the same between double quotes *)
    rx (Seq (Lit ("@" ++ dquote)) (Seq (Star (Cls Dot)) (Lit dquote)))
       String_;
    Rule (Lit "'") String_ (Push singlestring);
    Rule (Lit dquote) String_ (Push doublestring);
    (* "(?s:\|\|\|.*\|\|\|)" *)
    rx (Seq (Lit "|||") (Seq (Star (Cls DotAll)) (Lit "|||"))) String_;
    (* "[+-]?[0-9]+(.[0-9])?" *)
    rx (Seq (Opt (Cls (OneOf (chars "+-"))))
            (Seq (Plus digit) (Opt (Seq (Cls Dot) digit))))
       Number_Float;
    (* "[!$~+\-&|^=<>*/%]" *)
    rx (Cls (OneOf (chars "!$~+-&|^=<>*/%"))) Operator;
    Rule (Cls (OneOf (chars "{"))) Punctuation (Push object);
    Rule (Lit "[") Punctuation (Push array);
    (* "local\b" *)
    Rule (Seq (Lit "local") WordB) Keyword (Push local_name);
    Rule (Lit "assert") Keyword (Push assert);
    (* "({keywords})(?!{jsonnet_token_chars})" *)
    rx (Seq keywords (NotAhead jsonnet_token_chars)) Keyword;
    rx (Plus (Cls Space)) Whitespace;
    (* "function(?=\()" *)
    Rule (Seq (Lit "function") (Ahead (Lit "("))) Keyword
         (Push function_params);
    (* "std\." + jsonnet_function_token *)
    Rule (Seq (Lit "std.") jsonnet_function_token) Name_Builtin
         (Push function_args);
    Rule jsonnet_function_token Name_Function (Push function_args);
    rx jsonnet_token Name_Variable;
    (* "[\.()]" *)
    rx (Cls (OneOf (chars ".()"))) Punctuation ].

Definition backslash : ascii := "\".

Definition string_rules (quote_mark : ascii) : list rule :=
  [ (* "[^{}\\]".format(quote_mark) *)
    rx (Cls (NoneOf [One quote_mark; One backslash])) String_;
    (* "\\." *)
    rx (Seq (Cls (OneOf [One backslash])) (Cls Dot)) String_Escape;
    Rule (Cls (OneOf [One quote_mark])) String_ (Pop 1) ].

Definition quoted_field_name (quote_mark : ascii) : list rule :=
  [ (* "([^{quote}\\]|\\.)*{quote}" *)
    Rule (Seq (Star (Alt (Cls (NoneOf [One quote_mark; One backslash]))
                         (Seq (Cls (OneOf [One backslash])) (Cls Dot))))
              (Cls (OneOf [One quote_mark])))
         Name_Variable (Push field_separator) ].

(** [JsonnetLexer.tokens] *)
Definition tokens (st : state) : list rule :=
  match st with
  | root => rvalues
  | singlestring => string_rules "'"
  | doublestring => string_rules dq
  | array =>
      [ rx (Lit ",") Punctuation;
        Rule (Lit "]") Punctuation (Pop 1) ] ++ rvalues
  | local_name =>
      [ Rule jsonnet_function_token Name_Function (Push function_params);
        rx jsonnet_token Name_Variable;
        rx (Plus (Cls Space)) Whitespace;
        (* "(?==)" *)
        Rule (Ahead (Lit "=")) Whitespace (Tuple [pop; enter local_value]) ]
  | local_value =>
      [ rx (Lit "=") Operator;
        Rule (Lit ";") Punctuation (Pop 1) ] ++ rvalues
  | assert =>
      [ rx (Lit ":") Punctuation;
        Rule (Lit ";") Punctuation (Pop 1) ] ++ rvalues
  | function_params =>
      [ rx jsonnet_token Name_Variable;
        rx (Lit "(") Punctuation;
        Rule (Lit ")") Punctuation (Pop 1);
        rx (Lit ",") Punctuation;
        rx (Plus (Cls Space)) Whitespace;
        Rule (Lit "=") Operator (Push function_param_default) ]
  | function_args =>
      [ rx (Lit "(") Punctuation;
        Rule (Lit ")") Punctuation (Pop 1);
        rx (Lit ",") Punctuation;
        rx (Plus (Cls Space)) Whitespace ] ++ rvalues
  | object =>
      [ rx (Plus (Cls Space)) Whitespace;
        Rule (Seq (Lit "local") WordB) Keyword (Push object_local_name);
        Rule (Seq (Lit "assert") WordB) Keyword (Push object_assert);
        Rule (Lit "[") Operator (Push field_name_expr);
        (* "(?={jsonnet_token})" *)
        Rule (Ahead jsonnet_token) Name_Variable (Push field_name);
        Rule (Lit "}") Punctuation (Pop 1);
        Rule (Lit dquote) Name_Variable (Push double_field_name);
        Rule (Lit "'") Name_Variable (Push single_field_name) ] ++ comments
  | field_name =>
      [ Rule jsonnet_function_token Name_Function
             (Tuple [enter field_separator; enter function_params]);
        Rule jsonnet_token Name_Variable (Push field_separator) ]
  | double_field_name => quoted_field_name dq
  | single_field_name => quoted_field_name "'"
  | field_name_expr =>
      [ Rule (Lit "]") Operator (Push field_separator) ] ++ rvalues
  | function_param_default =>
      [ (* "(?=[,\)])" *)
        Rule (Ahead (Cls (OneOf (chars ",)")))) Whitespace (Pop 1) ] ++ rvalues
  | field_separator =>
      [ rx (Plus (Cls Space)) Whitespace;
        (* "\+?::?:?" *)
        Rule (Seq (Opt (Lit "+"))
                  (Seq (Lit ":") (Seq (Opt (Lit ":")) (Opt (Lit ":")))))
             Punctuation (Tuple [pop; pop; enter field_value]) ] ++ comments
  | field_value =>
      [ Rule (Lit ",") Punctuation (Pop 1);
        Rule (Lit "}") Punctuation (Pop 2) ] ++ rvalues
  | object_assert =>
      [ rx (Lit ":") Punctuation;
        Rule (Lit ",") Punctuation (Pop 1) ] ++ rvalues
  | object_local_name =>
      [ Rule jsonnet_token Name_Variable
             (Tuple [pop; enter object_local_value]);
        rx (Plus (Cls Space)) Whitespace ]
  | object_local_value =>
      [ rx (Lit "=") Operator;
        Rule (Lit ",") Punctuation (Pop 1);
        Rule (Lit "}") Punctuation (Pop 2) ] ++ rvalues
  end.

Definition all_states : list state :=
  [ root; singlestring; doublestring; array; local_name; local_value;
    assert; function_params; function_args; object; field_name;
    double_field_name; single_field_name; field_name_expr;
    function_param_default; field_separator; field_value;
    object_assert; object_local_name; object_local_value ].

End Jsonnet.

(** ** The scanning engine *)

Module Engine.
Import Re Jsonnet.

Definition token := (token_type * text)%type.

(** The state stack, top first; the bottom entry is [root]. *)
Definition stack := list state.

(** Modelled from the spec: the stack of the engine, which is not
    part of the source at hand, is "never empty while scanning
    continues; an attempt to pop past the bottom is an error".
    Removing the top entry leaves the bottom entry in place: a pop
    that would take it is an underflow, [None]. *)
Definition pop_one (st : stack) : option stack :=
  match st with
  | _ :: (_ :: _) as below => Some below
  | _ => None
  end.

Fixpoint pop_n (n : nat) (st : stack) : option stack :=
  match n with
  | 0 => Some st
  | S n' =>
      match pop_one st with
      | Some st' => pop_n n' st'
      | None => None
      end
  end.

Fixpoint do_items (items : list item) (st : stack) : option stack :=
  match items with
  | [] => Some st
  | pop :: items' =>
      match pop_one st with
      | Some st' => do_items items' st'
      | None => None
      end
  | enter s :: items' => do_items items' (s :: st)
  end.

(** Modelled from the spec: the state action of a rule, run by the
    engine of [RegexLexer], which is not part of the source at hand:
    "stay leaves stack unchanged; push(name) appends name; pop(n)
    removes the top n entries; pop-then-push(seq) removes one entry
    then appends each name in seq in order".  A tuple of the table is
    run entry by entry, so that a tuple with two ['#pop'] removes two
    entries before it pushes. *)
Definition apply_action (a : action) (st : stack) : option stack :=
  match a with
  | Stay => Some st
  | Push s => Some (s :: st)
  | Pop n => pop_n n st
  | Tuple items => do_items items st
  end.

(** The first rule, in declared order, whose pattern matches at the
    cursor, with the text left after the match. *)
Fixpoint first_match (rules : list rule) (prev : option ascii) (s : text)
  : option (rule * text) :=
  match rules with
  | [] => None
  | r :: rules' =>
      match match_at (pattern r) prev s with
      | Some rest => Some (r, rest)
      | None => first_match rules' prev s
      end
  end.

(** A scan in progress: the stack, the character before the cursor
    and the text from the cursor on. *)
Record config := Config {
  stk : stack;
  before : option ascii;
  input : text
}.

Inductive step_result :=
| Emit (t : token) (c : config)
| Halt
| Underflow.

(** The text between the cursor and what is left after a match. *)
Definition span (s rest : text) : text :=
  firstn (List.length s - List.length rest) s.

(** Modelled from the spec: one round of the loop of the engine
    ([RegexLexer.get_tokens_unprocessed], not part of the source at
    hand), "while cursor < length(source)": the first matching rule of
    the state on top of the stack emits its token, applies its state
    action and moves the cursor past the match; when no rule matches,
    one [Error] token covers exactly one character. *)
Definition step (c : config) : step_result :=
  match input c, stk c with
  | [], _ => Halt
  | _ :: _, [] => Underflow
  | ch :: rest, top :: _ =>
      match first_match (tokens top) (before c) (input c) with
      | Some (r, rest') =>
          let txt := span (input c) rest' in
          match apply_action (new_state r) (stk c) with
          | Some st' =>
              Emit (ttype r, txt)
                   (Config st' (last_char (before c) txt) rest')
          | None => Underflow
          end
      | None => Emit (Error, [ch]) (Config (stk c) (Some ch) rest)
      end
  end.

Inductive outcome :=
| Done (toks : list token)
| StackUnderflow
| OutOfFuel.

Definition emit (t : token) (o : outcome) : outcome :=
  match o with
  | Done toks => Done (t :: toks)
  | _ => o
  end.

(** Modelled from the spec: the loop of the engine, round after
    round until the text is used up.  [fuel] bounds the number of
    rounds; the scan of a whole text is given enough of it. *)
Fixpoint scan (fuel : nat) (c : config) : outcome :=
  match fuel with
  | 0 => OutOfFuel
  | S fuel' =>
      match step c with
      | Emit t c' => emit t (scan fuel' c')
      | Halt => Done []
      | Underflow => StackUnderflow
      end
  end.

Definition start (source : text) : config := Config [root] None source.

(** Two rounds per character are enough: a round that leaves the
    cursor in place is followed by one that moves it. *)
Definition tokenize (source : text) : outcome :=
  scan (S (2 * List.length source)) (start source).

(** The text the tokens cover, in the order of emission. *)
Definition texts (toks : list token) : text := List.concat (map snd toks).

(** The rule a round selects, with the text left after its match. *)
Definition selected (c : config) : option (rule * text) :=
  match stk c with
  | top :: _ => first_match (tokens top) (before c) (input c)
  | [] => None
  end.

(** The configurations a scan goes through. *)
Inductive reaches (c0 : config) : config -> Prop :=
| reaches_start : reaches c0 c0
| reaches_step c t c' :
    reaches c0 c -> step c = Emit t c' -> reaches c0 c'.

(** The stack after each emitted token. *)
Fixpoint stacks (fuel : nat) (c : config) : list stack :=
  match fuel with
  | 0 => []
  | S fuel' =>
      match step c with
      | Emit _ c' => stk c' :: stacks fuel' c'
      | _ => []
      end
  end.

End Engine.

(** ** Shape of the stack and static checks of the tables *)

Module Shape.
Import Re Jsonnet Engine.

Definition state_eqb (a b : state) : bool :=
  match a, b with
  | root, root | singlestring, singlestring | doublestring, doublestring
  | array, array | local_name, local_name | local_value, local_value
  | assert, assert | function_params, function_params
  | function_args, function_args | object, object
  | field_name, field_name | double_field_name, double_field_name
  | single_field_name, single_field_name
  | field_name_expr, field_name_expr
  | function_param_default, function_param_default
  | field_separator, field_separator | field_value, field_value
  | object_assert, object_assert | object_local_name, object_local_name
  | object_local_value, object_local_value => true
  | _, _ => false
  end.

(** The states whose table ends with [rvalues]. *)
Definition value_state (s : state) : bool :=
  match s with
  | root | array | local_value | assert | function_args
  | field_name_expr | function_param_default | field_value
  | object_assert | object_local_value => true
  | _ => false
  end.

(** [under s b]: the entry [b] may lie directly under an entry [s]. *)
Definition under (s b : state) : bool :=
  match s with
  | root => false
  | singlestring | doublestring | array | object | local_name
  | local_value | assert | function_args => value_state b
  | function_params =>
      value_state b || state_eqb b local_name || state_eqb b field_separator
  | function_param_default => state_eqb b function_params
  | field_name | double_field_name | single_field_name | field_name_expr
  | object_assert | object_local_name | object_local_value | field_value =>
      state_eqb b object
  | field_separator =>
      state_eqb b field_name || state_eqb b double_field_name
      || state_eqb b single_field_name || state_eqb b field_name_expr
  end.

(** A stack the tables can build: [root] at the bottom and nowhere
    else, every other entry on top of one it may lie on. *)
Fixpoint well_formed (st : stack) : bool :=
  match st with
  | [] => false
  | [b] => state_eqb b root
  | s :: (b :: _) as below => under s b && well_formed below
  end.

(** The actions run on what is known of the top of the stack, a list
    of the states it may be. *)
Definition below_of (tops : list state) : list state :=
  filter (fun b => existsb (fun s => under s b) tops) all_states.

Definition may_pop (tops : list state) : option (list state) :=
  if existsb (state_eqb root) tops then None else Some (below_of tops).

Definition may_push (s : state) (tops : list state) : option (list state) :=
  if forallb (under s) tops then Some [s] else None.

Fixpoint may_pop_n (n : nat) (tops : list state) : option (list state) :=
  match n with
  | 0 => Some tops
  | S n' =>
      match may_pop tops with
      | Some tops' => may_pop_n n' tops'
      | None => None
      end
  end.

Fixpoint may_items (items : list item) (tops : list state)
  : option (list state) :=
  match items with
  | [] => Some tops
  | pop :: items' =>
      match may_pop tops with
      | Some tops' => may_items items' tops'
      | None => None
      end
  | enter s :: items' =>
      match may_push s tops with
      | Some tops' => may_items items' tops'
      | None => None
      end
  end.

Definition may_apply (a : action) (tops : list state)
  : option (list state) :=
  match a with
  | Stay => Some tops
  | Push s => may_push s tops
  | Pop n => may_pop_n n tops
  | Tuple items => may_items items tops
  end.

(** The top of the stack is one of [tops]. *)
Definition top_in (st : stack) (tops : list state) : Prop :=
  match st with
  | s :: _ => In s tops
  | [] => False
  end.

(** The states with a rule that matches without moving the cursor. *)
Definition waiting (s : state) : bool :=
  match s with
  | object | local_name | function_param_default => true
  | _ => false
  end.

(** A rule of state [s] is in order when its action keeps the stack
    well formed and when, should its pattern match the empty string,
    it leaves a waiting state for one that is not. *)
Definition rule_ok (s : state) (r : rule) : bool :=
  match may_apply (new_state r) [s] with
  | Some tops =>
      consuming (pattern r)
      || (waiting s && forallb (fun t => negb (waiting t)) tops)
  | None => false
  end.

Definition table_ok : bool :=
  forallb (fun s => forallb (rule_ok s) (tokens s)) all_states.

(** What is left to do: two rounds per character, one more in a
    waiting state. *)
Definition measure (c : config) : nat :=
  2 * List.length (input c)
  + match stk c with
    | s :: _ => if waiting s then 1 else 0
    | [] => 0
    end.

End Shape.

(** ** The vocabulary of the specification *)

Module Spec.
Import Re Jsonnet Engine.

(** Modelled from the spec: the closed set of categories of the
    output, "Whitespace, Comment (plain), Comment-Documentation,
    Keyword, Operator, Punctuation, String, String-Escape, Number,
    Name-Variable, Name-Function, Name-Builtin-Function, Error". *)
Inductive category :=
| CWhitespace | CComment | CComment_Documentation | CKeyword
| COperator | CPunctuation | CString | CString_Escape | CNumber
| CName_Variable | CName_Function | CName_Builtin_Function | CError.

(** The category each token type of the tables falls in: the line
    comment and the block comment are both plain comments, the
    documentation string is the documentation comment. *)
Definition category_of (t : token_type) : category :=
  match t with
  | Comment | Comment_Single => CComment
  | String_Doc => CComment_Documentation
  | Keyword => CKeyword
  | Name_Builtin => CName_Builtin_Function
  | Name_Function => CName_Function
  | Name_Variable => CName_Variable
  | Number_Float => CNumber
  | Operator => COperator
  | Punctuation => CPunctuation
  | String_ => CString
  | String_Escape => CString_Escape
  | Whitespace => CWhitespace
  | Error => CError
  end.

Definition categorized (o : outcome) : list (category * string) :=
  match o with
  | Done toks =>
      map (fun t => (category_of (fst t), string_of_list_ascii (snd t))) toks
  | _ => []
  end.

(** An identifier character, "[_A-Za-z0-9]". *)
Definition ident_char (c : ascii) : bool :=
  cclass_mem (OneOf [One "_"; Range "A" "Z"; Range "a" "z"; Range "0" "9"]) c.

(** The text goes on with an identifier character. *)
Definition next_ident (s : text) : bool :=
  match s with
  | c :: _ => ident_char c
  | [] => false
  end.

(** The words of the list of keywords. *)
Definition listed : list text := map str keyword_list.

(** The words some rule classifies as keywords: the listed ones and
    the two with a rule of their own. *)
Definition reserved : list text := listed ++ [str "local"; str "function"].

(** The keyword claim, one direction: a keyword token is a listed
    word, and no identifier character follows it. *)
Definition keyword_only_if (source : text) : Prop :=
  forall toks l1 txt l2,
    tokenize source = Done toks -> toks = l1 ++ (Keyword, txt) :: l2 ->
    In txt listed /\ next_ident (texts l2) = false.

(** The other direction: a token that is a listed word with no
    identifier character after it is a keyword token. *)
Definition keyword_if (source : text) : Prop :=
  forall toks l1 ty txt l2,
    tokenize source = Done toks -> toks = l1 ++ (ty, txt) :: l2 ->
    In txt listed -> next_ident (texts l2) = false -> ty = Keyword.

(** The patterns of the rules that emit [Keyword]: "local\b",
    "assert", the listed words with their lookahead, "function(?=\()"
    and "assert\b". *)
Definition keyword_patterns : list regex :=
  [ Seq (Lit "local") WordB;
    Lit "assert";
    Seq keywords (NotAhead jsonnet_token_chars);
    Seq (Lit "function") (Ahead (Lit "("));
    Seq (Lit "assert") WordB ].

Definition is_digit (c : ascii) : bool :=
  (code "0" <=? code c) && (code c <=? code "9").

Fixpoint skip_digits (s : text) : text :=
  match s with
  | c :: s' => if is_digit c then skip_digits s' else s
  | [] => []
  end.

(** The shape the claim gives a number: an optional sign, one digit
    or more, then nothing or a full stop and exactly one digit. *)
Definition number_shape (s : text) : bool :=
  let unsigned :=
    match s with
    | c :: s' => if Ascii.eqb c "+" || Ascii.eqb c "-" then s' else s
    | [] => s
    end in
  match unsigned with
  | c :: s' =>
      is_digit c &&
      match skip_digits s' with
      | [] => true
      | [p; d] => Ascii.eqb p "." && is_digit d
      | _ => false
      end
  | [] => false
  end.

(** The three rules whose pattern is a lookahead alone, each with the
    state it belongs to. *)
Definition lookahead_rules : list (state * rule) :=
  [ (object, Rule (Ahead jsonnet_token) Name_Variable (Push field_name));
    (local_name,
     Rule (Ahead (Lit "=")) Whitespace (Tuple [pop; enter local_value]));
    (function_param_default,
     Rule (Ahead (Cls (OneOf (chars ",)")))) Whitespace (Pop 1)) ].

Definition nonempty (t : token) : bool :=
  match snd t with
  | [] => false
  | _ :: _ => true
  end.

End Spec.

(** ** What the patterns match, read as scans of the text *)

Module Runs.
Import Re Jsonnet Engine.

(** The text left once the longest run of characters of a class is
    cut off its head. *)
Fixpoint drop_class (cs : cclass) (s : text) : text :=
  match s with
  | c :: s' => if cclass_mem cs c then drop_class cs s' else s
  | [] => []
  end.

(** The character before that text. *)
Fixpoint last_in (cs : cclass) (prev : option ascii) (s : text)
  : option ascii :=
  match s with
  | c :: s' => if cclass_mem cs c then last_in cs (Some c) s' else prev
  | [] => prev
  end.

(** The classes of [jsonnet_token], of the digits and of the signs. *)
Definition token_start : cclass :=
  OneOf [One "_"; Range "A" "Z"; Range "a" "z"].

Definition token_chars : cclass :=
  OneOf [One "_"; Range "A" "Z"; Range "a" "z"; Range "0" "9"].

Definition digits : cclass := OneOf [Range "0" "9"].

Definition signs : cclass := OneOf (chars "+-").

(** An identifier: a first character, then the longest run of
    identifier characters. *)
Definition token_end (s : text) : option text :=
  match s with
  | c :: s' =>
      if cclass_mem token_start c then Some (drop_class token_chars s')
      else None
  | [] => None
  end.

(** A function name: an identifier with an opening parenthesis right
    after it; the parenthesis is left in the text. *)
Definition function_token_end (s : text) : option text :=
  match token_end s with
  | Some (c :: r) => if Ascii.eqb "(" c then Some (c :: r) else None
  | _ => None
  end.

(** Whitespace: the longest run of whitespace, one character at
    least. *)
Definition space_end (s : text) : option text :=
  match s with
  | c :: s' => if is_space c then Some (drop_class Space s') else None
  | [] => None
  end.

(** To the end of the line: past the first newline, if there is
    one. *)
Definition line_end (s : text) : option text :=
  match drop_class Dot s with
  | _ :: r => Some r
  | [] => None
  end.

(** A line comment: [#] or [//], then to the end of the line. *)
Definition line_comment_end (s : text) : option text :=
  match s with
  | c :: s' =>
      if Ascii.eqb "#" c then line_end s'
      else if Ascii.eqb "/" c then
        match s' with
        | c' :: s'' => if Ascii.eqb "/" c' then line_end s'' else None
        | [] => None
        end
      else None
  | [] => None
  end.

(** The pattern of the first rule of [comments]. *)
Definition line_comment : regex :=
  Seq (Alt (Lit "//") (Lit "#"))
      (Seq (Star (Cls Dot)) (Cls (OneOf [One newline]))).

(** The pattern of the rule of numbers. *)
Definition number : regex :=
  Seq (Opt (Cls (OneOf (chars "+-"))))
      (Seq (Plus digit) (Opt (Seq (Cls Dot) digit))).

(** After the digits of a number: any character but a newline and
    one digit are taken too, when they are there. *)
Definition number_tail (r : text) : text :=
  match r with
  | c :: d :: r' =>
      if cclass_mem Dot c && cclass_mem digits d then r' else r
  | _ => r
  end.

Definition unsigned_end (s : text) : option text :=
  match s with
  | d :: s' =>
      if cclass_mem digits d
      then Some (number_tail (drop_class digits s'))
      else None
  | [] => None
  end.

(** A number: a sign or none, the longest run of digits, one at
    least, and the tail. *)
Definition number_end (s : text) : option text :=
  match s with
  | c :: s' => if cclass_mem signs c then unsigned_end s' else unsigned_end s
  | [] => None
  end.

(** The pattern of the rule of [field_separator]. *)
Definition separator : regex :=
  Seq (Opt (Lit "+")) (Seq (Lit ":") (Seq (Opt (Lit ":")) (Opt (Lit ":")))).

(** One colon, and up to two more when they are there. *)
Definition colons_end (s : text) : option text :=
  match s with
  | c1 :: r1 =>
      if Ascii.eqb ":" c1 then
        Some match r1 with
             | c2 :: r2 =>
                 if Ascii.eqb ":" c2 then
                   match r2 with
                   | c3 :: r3 => if Ascii.eqb ":" c3 then r3 else r2
                   | [] => r2
                   end
                 else r1
             | [] => r1
             end
      else None
  | [] => None
  end.

Definition separator_end (s : text) : option text :=
  match s with
  | c :: s' => if Ascii.eqb "+" c then colons_end s' else colons_end s
  | [] => None
  end.

(** Rounds of the engine in a row: the tokens emitted from one
    configuration to another. *)
Inductive emits : config -> list token -> config -> Prop :=
| emits_none c : emits c [] c
| emits_more c t c1 toks c2 :
    step c = Emit t c1 -> emits c1 toks c2 -> emits c (t :: toks) c2.

(** One token per character. *)
Definition each (t : token_type) (s : text) : list token :=
  map (fun c => (t, [c])) s.

(** The state of the strings between a given quote. *)
Definition string_state (q : ascii) : state :=
  if Ascii.eqb q dq then doublestring else singlestring.

(** The characters some rule of [root] can start with. *)
Definition root_start (c : ascii) : bool :=
  cclass_mem token_chars c || is_space c
  || cclass_mem (OneOf (chars "/#@'|+-!$~&^=<>*%{[.()")) c
  || Ascii.eqb c dq.

(** The longest run of characters of a class at the head of a
    text. *)
Fixpoint take_class (cs : cclass) (s : text) : text :=
  match s with
  | c :: s' => if cclass_mem cs c then c :: take_class cs s' else []
  | [] => []
  end.

(** The pattern of the one rule of [quoted_field_name]. *)
Definition quoted (quote_mark : ascii) : regex :=
  Seq (Star (Alt (Cls (NoneOf [One quote_mark; One backslash]))
                 (Seq (Cls (OneOf [One backslash])) (Cls Dot))))
      (Cls (OneOf [One quote_mark])).

(** A piece of a quoted name: a character that is neither the quote
    nor a backslash, or a backslash with a character that is not a
    newline. *)
Definition is_piece (q : ascii) (p : text) : bool :=
  match p with
  | [c] => negb (Ascii.eqb c q) && negb (Ascii.eqb c backslash)
  | [b; d] => Ascii.eqb b backslash && cclass_mem Dot d
  | _ => false
  end.

(** The state of the field names between a given quote. *)
Definition field_state (q : ascii) : state :=
  if Ascii.eqb q dq then double_field_name else single_field_name.

(** The patterns of the verbatim strings, "@'.*'" and the same
    between double quotes. *)
Definition verbatim (q : ascii) : regex :=
  Seq (Lit (String "@" (String q EmptyString)))
      (Seq (Star (Cls Dot)) (Lit (String q EmptyString))).

(** The pattern of the text blocks, "\|\|\|.*\|\|\|" with a dot
    that matches newlines too. *)
Definition block : regex :=
  Seq (Lit "|||") (Seq (Star (Cls DotAll)) (Lit "|||")).

(** Some place of the text starts with [d]. *)
Fixpoint occurs (d : text) (s : text) : bool :=
  is_some (strip d s)
  || match s with
     | _ :: s' => occurs d s'
     | [] => false
     end.

(** The patterns of the second and third rules of [comments]. *)
Definition doc_comment : regex :=
  Seq (Lit "/**") (Seq comment_body (Lit "*/")).

Definition plain_comment : regex :=
  Seq (Lit "/*") (Seq comment_body (Lit "*/")).

(** One step of the body of a block comment: a character that is not
    a slash, or a slash with no star after it. *)
Definition comment_step : regex :=
  Alt (Cls (NoneOf [One "/"])) (Seq (Lit "/") (NotAhead (Lit "*"))).

(** The state on top of the stack. *)
Definition top_state (c : config) : option state := hd_error (stk c).

(** What follows a repetition of a class in a pattern, [K], matches
    nowhere along the run of the class at the head of [s]. *)
Definition fails_along {R} (cs : cclass) (K : cont R) (s : text) : Prop :=
  forall pre t p,
    s = pre ++ t -> forallb (cclass_mem cs) pre = true -> K p t = None.

End Runs.

(** * Proofs *)

(** ** The matcher only ever cuts a prefix off the text *)

Module ReFacts.
Import Re.

Lemma after_refl s : after s s false.
Proof. split; [exists []; reflexivity | discriminate]. Qed.

Lemma after_length s s' b : after s s' b -> List.length s' <= List.length s.
Proof.
  intros [[p ->] _]. rewrite length_app. lia.
Qed.

Lemma after_trans s1 s2 s3 b1 b2 :
  after s1 s2 b1 -> after s2 s3 b2 -> after s1 s3 (b1 || b2).
Proof.
  intros H1 H2.
  pose proof (after_length _ _ _ H1) as L1.
  pose proof (after_length _ _ _ H2) as L2.
  destruct H1 as [[p1 ->] S1], H2 as [[p2 ->] S2]. split.
  - exists (p1 ++ p2). now rewrite app_assoc.
  - intros Hb. apply orb_true_iff in Hb as [Hb | Hb].
    + specialize (S1 Hb). lia.
    + specialize (S2 Hb). lia.
Qed.

Lemma after_weaken s s' b : after s s' b -> after s s' false.
Proof. intros [H _]. split; [exact H | discriminate]. Qed.

Lemma strip_app p s s' : strip p s = Some s' -> s = p ++ s'.
Proof.
  revert s. induction p as [|a p IH]; intros [|b s]; simpl; try congruence.
  destruct (Ascii.eqb_spec a b) as [-> | _]; [|discriminate].
  intros H. f_equal. now apply IH.
Qed.

Lemma strip_app_eq p s : strip p (p ++ s) = Some s.
Proof.
  induction p as [|a p IH]; simpl; [reflexivity|].
  now rewrite Ascii.eqb_refl.
Qed.

Lemma str_nonempty a l : str (String a l) <> [].
Proof. discriminate. Qed.

Section Search.
Context {R : Type}.

Lemma star_loop_through body b n :
  through (R := R) body b -> through (fun k : cont R => star_loop body k n) false.
Proof.
  intros Hbody. induction n as [|n IH]; intros k prev s x; simpl.
  - intros H. exists prev, s. split; [exact H | apply after_refl].
  - destruct (body _ prev s) as [y|] eqn:E.
    + intros [= ->]. apply Hbody in E as (p1 & s1 & E1 & A1).
      destruct (List.length s1 <? List.length s); [|discriminate].
      apply IH in E1 as (p2 & s2 & E2 & A2).
      exists p2, s2. split; [exact E2|].
      apply after_weaken with (b := (b || false)%bool).
      eapply after_trans; eassumption.
    + intros H. exists prev, s. split; [exact H | apply after_refl].
Qed.

Lemma run_through (r : regex) : through (R := R) (run r) (consuming r).
Proof.
  induction r as [l | cs | r1 IH1 r2 IH2 | r1 IH1 r2 IH2 | r1 IH1 | r1 IH1
                 | r1 IH1 | r1 IH1 | r1 IH1 | ]; intros k prev s x; simpl.
  - destruct (strip (str l) s) as [s'|] eqn:E; [|discriminate].
    intros H. exists (last_char prev (str l)), s'. split; [exact H|].
    apply strip_app in E. subst s. split.
    + now exists (str l).
    + destruct l; [discriminate|]. intros _. rewrite length_app.
      simpl. lia.
  - destruct s as [|c s']; [discriminate|].
    destruct (cclass_mem cs c); [|discriminate].
    intros H. exists (Some c), s'. split; [exact H|]. split.
    + now exists [c].
    + intros _. simpl. lia.
  - intros H. apply IH1 in H as (p1 & s1 & H & A1).
    apply IH2 in H as (p2 & s2 & H & A2).
    exists p2, s2. split; [exact H|]. eapply after_trans; eassumption.
  - destruct (run r1 k prev s) as [y|] eqn:E.
    + intros [= ->]. apply IH1 in E as (p1 & s1 & H & A1).
      exists p1, s1. split; [exact H|].
      destruct (consuming r1), (consuming r2); simpl;
        solve [exact A1 | exact (after_weaken _ _ _ A1)].
    + intros H. apply IH2 in H as (p1 & s1 & H & A1).
      exists p1, s1. split; [exact H|].
      destruct (consuming r1), (consuming r2); simpl;
        solve [exact A1 | exact (after_weaken _ _ _ A1)].
  - apply (star_loop_through _ _ _ IH1).
  - intros H. apply IH1 in H as (p1 & s1 & H & A1).
    apply (star_loop_through _ _ _ IH1) in H as (p2 & s2 & H & A2).
    exists p2, s2. split; [exact H|].
    rewrite <- (orb_false_r (consuming r1)).
    eapply after_trans; eassumption.
  - destruct (run r1 k prev s) as [y|] eqn:E.
    + intros [= ->]. apply IH1 in E as (p1 & s1 & H & A1).
      exists p1, s1. split; [exact H | now apply after_weaken in A1].
    + intros H. exists prev, s. split; [exact H | apply after_refl].
  - destruct (is_some _); [|discriminate].
    intros H. exists prev, s. split; [exact H | apply after_refl].
  - destruct (is_some _); [discriminate|].
    intros H. exists prev, s. split; [exact H | apply after_refl].
  - destruct (xorb _ _); [|discriminate].
    intros H. exists prev, s. split; [exact H | apply after_refl].
Qed.

End Search.

Lemma match_at_after r prev s rest :
  match_at r prev s = Some rest -> after s rest (consuming r).
Proof.
  unfold match_at. intros H.
  apply run_through in H as (p & s' & [= ->] & A). exact A.
Qed.

End ReFacts.

(** ** The tables keep the stack well formed *)

Module ShapeFacts.
Import Re Jsonnet Engine Shape ReFacts.

Lemma state_eqb_eq a b : state_eqb a b = true <-> a = b.
Proof. split; [destruct a, b; simpl; congruence | intros ->; now destruct b]. Qed.

Lemma all_states_complete s : In s all_states.
Proof. destruct s; simpl; tauto. Qed.

Lemma table_ok_true : table_ok = true.
Proof. vm_compute. reflexivity. Qed.

Lemma rule_ok_in s r : In r (tokens s) -> rule_ok s r = true.
Proof.
  intros H. pose proof table_ok_true as T. unfold table_ok in T.
  rewrite forallb_forall in T. specialize (T s (all_states_complete s)).
  rewrite forallb_forall in T. now apply T.
Qed.

Lemma well_formed_top st : well_formed st = true -> exists s below, st = s :: below.
Proof. destruct st as [|s below]; [discriminate | eauto]. Qed.

Lemma well_formed_below s below :
  well_formed (s :: below) = true -> s <> root ->
  exists b rest, below = b :: rest /\ under s b = true
                 /\ well_formed below = true.
Proof.
  destruct below as [|b rest]; simpl.
  - intros H Hs. apply state_eqb_eq in H. contradiction.
  - intros H _. apply andb_true_iff in H as [U W]. eauto.
Qed.

Lemma in_below_of s b tops :
  In s tops -> under s b = true -> In b (below_of tops).
Proof.
  intros Hs U. apply filter_In. split; [apply all_states_complete|].
  apply existsb_exists. now exists s.
Qed.

Lemma may_pop_inv tops tops' :
  may_pop tops = Some tops' ->
  existsb (state_eqb root) tops = false /\ tops' = below_of tops.
Proof.
  unfold may_pop. destruct (existsb (state_eqb root) tops); [discriminate|].
  intros H. split; [reflexivity|].
  exact (eq_sym (f_equal (fun o => match o with Some x => x | None => tops' end) H)).
Qed.

Lemma may_pop_sound st tops tops' :
  well_formed st = true -> top_in st tops -> may_pop tops = Some tops' ->
  exists st', pop_one st = Some st' /\ well_formed st' = true
              /\ top_in st' tops'.
Proof.
  intros W T H. apply may_pop_inv in H as [E ->].
  destruct st as [|s below]; [contradiction|]. cbn [top_in] in T.
  assert (s <> root) as Hs.
  { intros ->. apply Bool.not_true_iff_false in E. apply E.
    apply existsb_exists. exists root. split; [exact T | reflexivity]. }
  destruct (well_formed_below _ _ W Hs) as (b & rest & -> & U & W').
  exists (b :: rest). split; [reflexivity|]. split; [exact W'|].
  cbn [top_in]. now apply in_below_of with (s := s).
Qed.

Lemma may_push_sound s st tops tops' :
  well_formed st = true -> top_in st tops -> may_push s tops = Some tops' ->
  well_formed (s :: st) = true /\ top_in (s :: st) tops'.
Proof.
  intros W T. unfold may_push.
  destruct (forallb (under s) tops) eqn:E; [|discriminate].
  intros [= <-]. destruct st as [|b rest]; [contradiction|]. simpl in T.
  rewrite forallb_forall in E. split; [|now left].
  change (under s b && well_formed (b :: rest) = true).
  now rewrite (E b T), W.
Qed.

Lemma may_pop_n_sound n : forall st tops tops',
  well_formed st = true -> top_in st tops -> may_pop_n n tops = Some tops' ->
  exists st', pop_n n st = Some st' /\ well_formed st' = true
              /\ top_in st' tops'.
Proof.
  induction n as [|n IH]; intros st tops tops' W T; simpl.
  - intros [= <-]. eauto.
  - destruct (may_pop tops) as [tops1|] eqn:E; [|discriminate].
    intros H. destruct (may_pop_sound _ _ _ W T E) as (st1 & -> & W1 & T1).
    now apply (IH st1 tops1).
Qed.

Lemma may_items_sound items : forall st tops tops',
  well_formed st = true -> top_in st tops ->
  may_items items tops = Some tops' ->
  exists st', do_items items st = Some st' /\ well_formed st' = true
              /\ top_in st' tops'.
Proof.
  induction items as [|[|s] items IH]; intros st tops tops' W T; simpl.
  - intros [= <-]. eauto.
  - destruct (may_pop tops) as [tops1|] eqn:E; [|discriminate].
    intros H. destruct (may_pop_sound _ _ _ W T E) as (st1 & -> & W1 & T1).
    now apply (IH st1 tops1).
  - destruct (may_push s tops) as [tops1|] eqn:E; [|discriminate].
    intros H. destruct (may_push_sound _ _ _ _ W T E) as [W1 T1].
    now apply (IH (s :: st) tops1).
Qed.

Lemma may_apply_sound a st tops tops' :
  well_formed st = true -> top_in st tops ->
  may_apply a tops = Some tops' ->
  exists st', apply_action a st = Some st' /\ well_formed st' = true
              /\ top_in st' tops'.
Proof.
  destruct a as [|s|n|items]; simpl; intros W T.
  - intros [= <-]. eauto.
  - intros H. destruct (may_push_sound _ _ _ _ W T H). eauto.
  - now apply may_pop_n_sound.
  - now apply may_items_sound.
Qed.

End ShapeFacts.

(** ** One round of the engine, and the whole scan *)

Module EngineFacts.
Import Re Jsonnet Engine Shape Spec ReFacts ShapeFacts.

Lemma first_match_sound rules prev s r rest :
  first_match rules prev s = Some (r, rest) ->
  In r rules /\ match_at (pattern r) prev s = Some rest.
Proof.
  induction rules as [|r0 rules IH]; simpl; [discriminate|].
  destruct (match_at (pattern r0) prev s) as [rest0|] eqn:E.
  - intros [= -> ->]. split; [now left | exact E].
  - intros H. apply IH in H as [H1 H2]. split; [now right | exact H2].
Qed.

Lemma span_after s rest b : after s rest b -> span s rest ++ rest = s.
Proof.
  intros [[p ->] _]. unfold span. rewrite length_app.
  replace (List.length p + List.length rest - List.length rest)
    with (List.length p + 0) by lia.
  now rewrite firstn_app_2, app_nil_r.
Qed.

Lemma span_same s : span s s = [].
Proof. unfold span. now rewrite Nat.sub_diag. Qed.

(** What a round emits is the text the cursor moves over. *)
Lemma step_covers c t c' :
  step c = Emit t c' -> snd t ++ input c' = input c.
Proof.
  unfold step. destruct (input c) as [|ch rest] eqn:Ei; [discriminate|].
  destruct (stk c) as [|top below]; [discriminate|].
  destruct (first_match _ _ _) as [[r rest']|] eqn:E.
  - destruct (apply_action _ _); [|discriminate].
    intros [= <- <-]. simpl.
    apply first_match_sound in E as [_ E].
    apply match_at_after in E. now apply span_after in E.
  - intros [= <- <-]. reflexivity.
Qed.

Lemma scan_covers fuel : forall c toks,
  scan fuel c = Done toks -> texts toks = input c.
Proof.
  induction fuel as [|fuel IH]; intros c toks; simpl; [discriminate|].
  destruct (step c) as [t c'| |] eqn:E; try discriminate.
  - destruct (scan fuel c') as [toks'| |] eqn:E'; try discriminate.
    intros [= <-]. unfold texts in *. simpl. rewrite (IH _ _ E').
    now apply step_covers.
  - intros [= <-]. unfold step in E.
    destruct (input c) as [|ch rest]; [reflexivity|].
    destruct (stk c); [discriminate|].
    destruct (first_match _ _ _) as [[r rest']|]; [|discriminate].
    destruct (apply_action _ _); discriminate.
Qed.

(** A round from a well-formed stack emits a token, keeps the stack
    well formed and brings the end of the scan closer. *)
Lemma step_progress c :
  well_formed (stk c) = true -> input c <> [] ->
  exists t c', step c = Emit t c' /\ well_formed (stk c') = true
               /\ measure c' < measure c.
Proof.
  destruct c as [st prev s]. unfold step, measure. cbn [stk input before].
  intros W Hi. destruct s as [|ch rest]; [contradiction|].
  destruct st as [|top below]; [discriminate|].
  destruct (first_match _ _ _) as [[r rest']|] eqn:E.
  - apply first_match_sound in E as [Hin E].
    apply rule_ok_in in Hin. unfold rule_ok in Hin.
    destruct (may_apply (new_state r) [top]) as [tops|] eqn:Ea;
      [|discriminate].
    destruct (may_apply_sound _ (top :: below) [top] _ W
                (or_introl eq_refl) Ea) as (st' & -> & W' & T').
    eexists _, _. split; [reflexivity|]. split; [exact W'|].
    cbn [stk input].
    apply match_at_after in E. pose proof (after_length _ _ _ E) as L.
    destruct E as [_ S]. cbn [List.length] in *.
    destruct st' as [|s' below']; [contradiction|]. cbn [top_in] in T'.
    apply orb_true_iff in Hin as [C | Z].
    + specialize (S C). destruct (waiting s'), (waiting top); lia.
    + apply andb_true_iff in Z as [Z1 Z2]. rewrite Z1.
      rewrite forallb_forall in Z2. specialize (Z2 _ T').
      destruct (waiting s'); [discriminate | lia].
  - eexists _, _. split; [reflexivity|]. split; [exact W|].
    cbn [stk input List.length]. lia.
Qed.

Lemma scan_done fuel : forall c,
  well_formed (stk c) = true -> measure c < fuel ->
  exists toks, scan fuel c = Done toks.
Proof.
  induction fuel as [|fuel IH]; intros c W M; [lia|]. simpl.
  destruct (input c) as [|ch rest] eqn:Ei.
  - unfold step. rewrite Ei. eauto.
  - destruct (step_progress c W) as (t & c' & -> & W' & M').
    { rewrite Ei. discriminate. }
    destruct (IH c' W') as [toks ->]; [lia|]. simpl. eauto.
Qed.

Lemma start_measure source : measure (start source) = 2 * List.length source.
Proof. unfold measure. simpl. lia. Qed.

Lemma tokenize_done source : exists toks, tokenize source = Done toks.
Proof.
  apply scan_done; [reflexivity|]. rewrite start_measure. lia.
Qed.

Lemma scan_more fuel extra : forall c toks,
  scan fuel c = Done toks -> scan (fuel + extra) c = Done toks.
Proof.
  induction fuel as [|fuel IH]; intros c toks; simpl; [discriminate|].
  destruct (step c) as [t c'| |]; try discriminate; [|trivial].
  destruct (scan fuel c') as [toks'| |] eqn:E; try discriminate.
  intros [= <-]. now rewrite (IH _ _ E).
Qed.

Lemma step_keeps_shape c t c' :
  well_formed (stk c) = true -> step c = Emit t c' ->
  well_formed (stk c') = true.
Proof.
  intros W E. destruct (input c) as [|ch rest] eqn:Ei.
  - unfold step in E. now rewrite Ei in E.
  - destruct (step_progress c W) as (t1 & c1 & E1 & W1 & _).
    { rewrite Ei. discriminate. }
    rewrite E in E1. now injection E1 as <- <-.
Qed.

Lemma reaches_shape source c :
  reaches (start source) c -> well_formed (stk c) = true.
Proof.
  induction 1 as [|c t c' _ IH E]; [reflexivity|].
  exact (step_keeps_shape _ _ _ IH E).
Qed.

Lemma step_no_underflow c :
  well_formed (stk c) = true -> step c <> Underflow.
Proof.
  intros W E. destruct (input c) as [|ch rest] eqn:Ei.
  - unfold step in E. now rewrite Ei in E.
  - destruct (step_progress c W) as (t1 & c1 & E1 & _).
    { rewrite Ei. discriminate. }
    congruence.
Qed.

(** The entries that pop two levels lie on two entries at least. *)
Lemma two_below s below :
  well_formed (s :: below) = true ->
  s = field_separator \/ s = field_value \/ s = object_local_value ->
  2 < List.length (s :: below).
Proof.
  intros W Hs.
  assert (s <> root) as N by (destruct Hs as [-> | [-> | ->]]; discriminate).
  destruct (well_formed_below _ _ W N) as (b & rest & -> & U & W1).
  assert (b <> root) as N1.
  { intros ->. destruct Hs as [-> | [-> | ->]]; discriminate. }
  destruct (well_formed_below _ _ W1 N1) as (b1 & rest1 & -> & _).
  simpl. lia.
Qed.

Lemma well_formed_bottom st :
  well_formed st = true -> exists up, st = up ++ [root].
Proof.
  induction st as [|s [|b rest] IH]; [discriminate| |].
  - intros H. apply state_eqb_eq in H. subst s. now exists [].
  - intros H. change (under s b && well_formed (b :: rest) = true) in H.
    apply andb_true_iff in H as [_ H]. destruct (IH H) as [up E].
    exists (s :: up). simpl. now rewrite E.
Qed.

Lemma match_at_ahead p prev s rest :
  match_at (Ahead p) prev s = Some rest -> rest = s.
Proof.
  unfold match_at. cbn [run]. destruct (is_some _); congruence.
Qed.

(** The lookahead rules are the only rules that can match the empty
    text. *)
Lemma only_lookahead_rules s r :
  In r (tokens s) -> consuming (pattern r) = false ->
  In (s, r) lookahead_rules.
Proof.
  intros Hin Hc.
  destruct s;
    cbv [tokens rvalues comments string_rules quoted_field_name rx app]
      in Hin;
    repeat (destruct Hin as [<- | Hin];
            [ first [discriminate Hc | simpl; tauto] | ]);
    destruct Hin.
Qed.

Lemma selected_sound c r rest :
  selected c = Some (r, rest) ->
  exists top below, stk c = top :: below /\ In r (tokens top)
    /\ first_match (tokens top) (before c) (input c) = Some (r, rest)
    /\ match_at (pattern r) (before c) (input c) = Some rest.
Proof.
  unfold selected. destruct (stk c) as [|top below]; [discriminate|].
  intros H. exists top, below. split; [reflexivity|].
  destruct (first_match_sound _ _ _ _ _ H) as [H1 H2]. auto.
Qed.

End EngineFacts.

(** ** The rules that emit keywords *)

Module KeywordFacts.
Import Re Jsonnet Engine Shape Spec ReFacts ShapeFacts EngineFacts.

Lemma keyword_rules s r :
  In r (tokens s) -> ttype r = Keyword -> In (pattern r) keyword_patterns.
Proof.
  intros Hin Ht.
  destruct s;
    cbv [tokens rvalues comments string_rules quoted_field_name rx app]
      in Hin;
    repeat (destruct Hin as [<- | Hin];
            [ cbn [ttype pattern] in *;
              first [discriminate | simpl; tauto] | ]);
    destruct Hin.
Qed.

Lemma ident_is_word c : ident_char c = true -> is_word c = true.
Proof.
  destruct c as [[] [] [] [] [] [] [] []]; vm_compute; congruence.
Qed.

Lemma run_lit {R} l (k : cont R) prev s x :
  run (Lit l) k prev s = Some x ->
  exists s', s = str l ++ s' /\ k (last_char prev (str l)) s' = Some x.
Proof.
  cbn [run]. destruct (strip (str l) s) as [s'|] eqn:E; [|discriminate].
  intros H. exists s'. split; [now apply strip_app | exact H].
Qed.

Lemma run_words {R} ws : forall (k : cont R) prev s x,
  run (words ws) k prev s = Some x ->
  exists w s', In w ws /\ s = str w ++ s'
               /\ k (last_char prev (str w)) s' = Some x.
Proof.
  induction ws as [|w ws IH]; intros k prev s x.
  - cbn. discriminate.
  - destruct ws as [|w1 ws].
    + intros H. apply run_lit in H as (s' & E & H).
      exists w, s'. split; [now left | auto].
    + change (run (words (w :: w1 :: ws)) k prev s)
        with (match run (Lit w) k prev s with
              | Some y => Some y
              | None => run (words (w1 :: ws)) k prev s
              end).
      destruct (run (Lit w) k prev s) as [y|] eqn:E.
      * intros [= ->]. apply run_lit in E as (s' & E & H).
        exists w, s'. split; [now left | auto].
      * intros H. apply IH in H as (w' & s' & Hin & E' & H).
        exists w', s'. split; [now right | auto].
Qed.

Lemma run_not_ahead_class {R} cs (k : cont R) prev s x :
  run (NotAhead (Cls cs)) k prev s = Some x ->
  match s with c :: _ => cclass_mem cs c = false | [] => True end
  /\ k prev s = Some x.
Proof.
  cbn [run]. destruct s as [|c s']; cbn [is_some].
  - auto.
  - destruct (cclass_mem cs c); cbn [is_some]; [discriminate | auto].
Qed.

Lemma next_not_word rest :
  word_opt (hd_error rest) = false -> next_ident rest = false.
Proof.
  destruct rest as [|c rest]; [reflexivity|]. cbn [hd_error word_opt next_ident].
  intros H. destruct (ident_char c) eqn:E; [|reflexivity].
  apply ident_is_word in E. congruence.
Qed.

Lemma match_at_seq a b prev s :
  match_at (Seq a b) prev s = run a (run b (fun _ s' => Some s')) prev s.
Proof. reflexivity. Qed.

Lemma run_word_boundary l prev s rest :
  word_opt (last_char prev (str l)) = true ->
  match_at (Seq (Lit l) WordB) prev s = Some rest ->
  s = str l ++ rest /\ next_ident rest = false.
Proof.
  intros Hw H. rewrite match_at_seq in H.
  apply run_lit in H as (s' & -> & H).
  cbn [run] in H. rewrite Hw in H.
  destruct (word_opt (hd_error s')) eqn:E; [discriminate|].
  injection H as <-. split; [reflexivity | now apply next_not_word].
Qed.

Lemma in_reserved_listed w : In w keyword_list -> In (str w) reserved.
Proof.
  intros H. apply in_or_app. left. now apply in_map.
Qed.

(** What a keyword rule matches: a reserved word, with no identifier
    character after it unless the word is [assert]. *)
Lemma keyword_match p prev s rest :
  In p keyword_patterns -> match_at p prev s = Some rest ->
  exists w, In w reserved /\ s = w ++ rest
            /\ (w <> str "assert" -> next_ident rest = false).
Proof.
  intros [<- | [<- | [<- | [<- | [<- | []]]]]] H.
  - apply run_word_boundary in H as [-> N]; [|reflexivity].
    exists (str "local"). split; [|auto].
    apply in_or_app. right. now left.
  - unfold match_at in H. apply run_lit in H as (s' & -> & [= ->]).
    exists (str "assert"). split; [|split; [reflexivity | congruence]].
    apply in_reserved_listed. now left.
  - rewrite match_at_seq in H.
    apply run_words in H as (w & s' & Hin & -> & H).
    apply run_not_ahead_class in H as [N [= ->]].
    exists (str w). split; [now apply in_reserved_listed|].
    split; [reflexivity|]. intros _.
    destruct rest as [|c rest]; [reflexivity | exact N].
  - rewrite match_at_seq in H.
    apply run_lit in H as (s' & -> & H).
    cbn [run] in H.
    destruct (strip (str "(") s') as [s1|] eqn:E; cbn [is_some] in H;
      [|discriminate].
    injection H as <-. apply strip_app in E. subst s'.
    exists (str "function"). split; [|split; [reflexivity | reflexivity]].
    apply in_or_app. right. right. now left.
  - apply run_word_boundary in H as [-> N]; [|reflexivity].
    exists (str "assert"). split; [|auto].
    apply in_reserved_listed. now left.
Qed.

Lemma span_app w rest : span (w ++ rest) rest = w.
Proof.
  unfold span. rewrite length_app.
  replace (List.length w + List.length rest - List.length rest)
    with (List.length w + 0) by lia.
  now rewrite firstn_app_2, app_nil_r.
Qed.

Lemma step_keyword c txt c' :
  step c = Emit (Keyword, txt) c' ->
  In txt reserved /\ (txt <> str "assert" -> next_ident (input c') = false).
Proof.
  unfold step. destruct (input c) as [|ch more] eqn:Ei; [discriminate|].
  destruct (stk c) as [|top below]; [discriminate|].
  destruct (first_match _ _ _) as [[r rest]|] eqn:E; [|discriminate].
  destruct (apply_action _ _); [|discriminate].
  intros [= Ht <- <-]. cbn [input].
  apply first_match_sound in E as [Hin E].
  destruct (keyword_match _ _ _ _ (keyword_rules _ _ Hin Ht) E)
    as (w & Hw & -> & N).
  now rewrite span_app.
Qed.

Lemma scan_keywords fuel : forall c toks l1 txt l2,
  scan fuel c = Done toks -> toks = l1 ++ (Keyword, txt) :: l2 ->
  In txt reserved /\ (txt <> str "assert" -> next_ident (texts l2) = false).
Proof.
  induction fuel as [|fuel IH]; intros c toks l1 txt l2; simpl;
    [discriminate|].
  destruct (step c) as [t c'| |] eqn:E; try discriminate.
  - destruct (scan fuel c') as [toks'| |] eqn:E'; try discriminate.
    intros [= <-]. destruct l1 as [|t1 l1]; intros [= -> ->].
    + rewrite (scan_covers _ _ _ E'). now apply step_keyword with (c := c).
    + now apply (IH c' _ l1 txt l2 E').
  - intros [= <-] H. now destruct l1.
Qed.

Lemma step_selected c ch more top below r rest st' :
  input c = ch :: more -> stk c = top :: below ->
  first_match (tokens top) (before c) (input c) = Some (r, rest) ->
  apply_action (new_state r) (stk c) = Some st' ->
  step c = Emit (ttype r, span (input c) rest)
                (Config st' (last_char (before c) (span (input c) rest)) rest).
Proof.
  intros Ei Es F A. unfold step. rewrite Es in *. rewrite F.
  rewrite Ei at 1. now rewrite A.
Qed.

(** At the start of a text, [for] with no identifier character after
    it is matched by the rule of the listed words. *)
Lemma for_selected rest :
  next_ident rest = false ->
  first_match (tokens root) None (str "for" ++ rest)
  = Some (rx (Seq keywords (NotAhead jsonnet_token_chars)) Keyword, rest).
Proof.
  destruct rest as [|c rest]; intros H; [vm_compute; reflexivity|].
  cbn [next_ident] in H.
  destruct c as [[] [] [] [] [] [] [] []];
    first [ discriminate H | vm_compute; reflexivity ].
Qed.

(** The rule of [assert] in [rvalues] has no boundary after the word,
    unlike the one of [object]. *)
Example assert_without_boundary :
  tokenize (str "assertion")
  = Done [(Keyword, str "assert"); (Name_Variable, str "ion")].
Proof. vm_compute. reflexivity. Qed.

End KeywordFacts.

(** ** Repetition of a class, followed to its end *)

Module RunFacts.
Import Re Jsonnet Engine Shape Spec Runs ReFacts ShapeFacts EngineFacts.

Section Greedy.
Context {R : Type} (cs : cclass) (K : cont R).

Lemma star_class_unfold n prev c s :
  cclass_mem cs c = true ->
  star_loop (run (Cls cs)) K (S n) prev (c :: s)
  = match star_loop (run (Cls cs)) K n (Some c) s with
    | Some x => Some x
    | None => K prev (c :: s)
    end.
Proof.
  intros H. cbn [star_loop run]. rewrite H.
  assert ((List.length s <? List.length (c :: s)) = true) as ->
    by (apply Nat.ltb_lt; simpl; lia).
  reflexivity.
Qed.

Lemma star_class_stop n prev s :
  match s with c :: _ => cclass_mem cs c = false | [] => True end ->
  star_loop (run (Cls cs)) K n prev s = K prev s.
Proof.
  destruct n as [|n]; [reflexivity|]. cbn [star_loop run].
  destruct s as [|c s]; [reflexivity|]. now intros ->.
Qed.

(** The repetition runs to the end of the run of the class when what
    follows the repetition in the pattern matches there. *)
Lemma star_class_reach x : forall n prev s,
  List.length s <= n ->
  K (last_in cs prev s) (drop_class cs s) = Some x ->
  star_loop (run (Cls cs)) K n prev s = Some x.
Proof.
  induction n as [|n IH]; intros prev s L H.
  - destruct s; [exact H | simpl in L; lia].
  - destruct s as [|c s]; [exact H|]. cbn [last_in drop_class] in H.
    destruct (cclass_mem cs c) eqn:E.
    + rewrite star_class_unfold by exact E.
      rewrite (IH (Some c) s); [reflexivity | simpl in L; lia | exact H].
    + now rewrite (star_class_stop (S n) prev (c :: s) E).
Qed.

(** It is the only place where what follows is tried with success,
    when what follows cannot start with a character of the class. *)
Lemma star_class_only :
  (forall p c s, cclass_mem cs c = true -> K p (c :: s) = None) ->
  forall n prev s,
    List.length s <= n ->
    star_loop (run (Cls cs)) K n prev s
    = K (last_in cs prev s) (drop_class cs s).
Proof.
  intros HK. induction n as [|n IH]; intros prev s L.
  - destruct s; [reflexivity | simpl in L; lia].
  - destruct s as [|c s]; [reflexivity|]. cbn [last_in drop_class].
    destruct (cclass_mem cs c) eqn:E.
    + rewrite star_class_unfold by exact E.
      rewrite (IH (Some c) s) by (simpl in L; lia).
      destruct (K _ _); [reflexivity | now apply HK].
    + now rewrite (star_class_stop (S n) prev (c :: s) E).
Qed.

End Greedy.

Lemma drop_class_head cs s :
  match drop_class cs s with
  | c :: _ => cclass_mem cs c = false
  | [] => True
  end.
Proof.
  induction s as [|c s IH]; simpl; [exact I|].
  destruct (cclass_mem cs c) eqn:E; [exact IH | exact E].
Qed.

Lemma drop_class_after cs s : after s (drop_class cs s) false.
Proof.
  induction s as [|c s IH]; simpl; [apply after_refl|].
  destruct (cclass_mem cs c); [|apply after_refl].
  destruct IH as [[p E] _]. split; [|discriminate].
  exists (c :: p). simpl. now rewrite <- E.
Qed.

Lemma run_cls {R} cs (k : cont R) prev s :
  run (Cls cs) k prev s
  = match s with
    | c :: s' => if cclass_mem cs c then k (Some c) s' else None
    | [] => None
    end.
Proof. reflexivity. Qed.

Lemma run_star {R} r (k : cont R) prev s :
  run (Star r) k prev s = star_loop (run r) k (List.length s) prev s.
Proof. reflexivity. Qed.

Lemma run_plus {R} r (k : cont R) prev s :
  run (Plus r) k prev s
  = run r (fun prev' s' => star_loop (run r) k (List.length s') prev' s')
        prev s.
Proof. reflexivity. Qed.

Lemma run_seq {R} r1 r2 (k : cont R) prev s :
  run (Seq r1 r2) k prev s = run r1 (run r2 k) prev s.
Proof. reflexivity. Qed.

Lemma run_opt {R} r (k : cont R) prev s :
  run (Opt r) k prev s
  = match run r k prev s with
    | Some x => Some x
    | None => k prev s
    end.
Proof. reflexivity. Qed.

Lemma run_alt {R} r1 r2 (k : cont R) prev s :
  run (Alt r1 r2) k prev s
  = match run r1 k prev s with
    | Some x => Some x
    | None => run r2 k prev s
    end.
Proof. reflexivity. Qed.

Lemma run_lit_eq {R} l (k : cont R) prev s :
  run (Lit l) k prev s
  = match strip (str l) s with
    | Some s' => k (last_char prev (str l)) s'
    | None => None
    end.
Proof. reflexivity. Qed.

Lemma match_token prev s : match_at jsonnet_token prev s = token_end s.
Proof.
  unfold match_at, jsonnet_token, jsonnet_token_chars, token_end.
  cbn [run]. destruct s as [|c s]; [reflexivity|].
  change (OneOf [One "_"%char; Range "A" "Z"; Range "a" "z"])
    with token_start.
  destruct (cclass_mem token_start c); [|reflexivity].
  now apply star_class_reach.
Qed.

Lemma ahead_paren_none {R} (k : cont R) p c s :
  cclass_mem token_chars c = true ->
  run (Ahead (Lit "(")) k p (c :: s) = None.
Proof.
  intros H. cbn [run strip str list_ascii_of_string].
  destruct (Ascii.eqb_spec "(" c) as [<- | _]; [discriminate H | reflexivity].
Qed.

Lemma match_function_token prev s :
  match_at jsonnet_function_token prev s = function_token_end s.
Proof.
  unfold match_at, jsonnet_function_token, function_token_end, token_end.
  change (run (Seq jsonnet_token (Ahead (Lit "("))) (fun _ s' => Some s') prev s)
    with (run (Cls token_start)
              (run (Star (Cls token_chars))
                   (run (Ahead (Lit "(")) (fun _ s' => Some s'))) prev s).
  rewrite run_cls. destruct s as [|c s]; [reflexivity|].
  destruct (cclass_mem token_start c); [|reflexivity].
  rewrite run_star, star_class_only;
    [|intros; now apply ahead_paren_none | lia].
  destruct (drop_class token_chars s) as [|c' r]; [reflexivity|].
  cbn [run strip str list_ascii_of_string is_some].
  now destruct (Ascii.eqb "(" c').
Qed.

Lemma match_space prev s : match_at (Plus (Cls Space)) prev s = space_end s.
Proof.
  unfold match_at, space_end. rewrite run_plus, run_cls.
  destruct s as [|c s]; [reflexivity|]. cbn [cclass_mem].
  destruct (is_space c); [|reflexivity].
  now apply star_class_reach.
Qed.

Lemma dot_not_newline c :
  cclass_mem Dot c = negb (cclass_mem (OneOf [One newline]) c).
Proof.
  cbn [cclass_mem existsb citem_mem]. unfold newline.
  now rewrite orb_false_r.
Qed.

Lemma line_rest p s :
  run (Seq (Star (Cls Dot)) (Cls (OneOf [One newline])))
      (fun _ s' => Some s') p s
  = line_end s.
Proof.
  rewrite run_seq, run_star, star_class_only; [| |lia].
  - unfold line_end. pose proof (drop_class_head Dot s) as H.
    destruct (drop_class Dot s) as [|c r]; [reflexivity|].
    rewrite run_cls. rewrite dot_not_newline in H.
    now destruct (cclass_mem (OneOf [One newline]) c).
  - intros p' c s' H. rewrite run_cls. rewrite dot_not_newline in H.
    now destruct (cclass_mem (OneOf [One newline]) c).
Qed.

Lemma match_line_comment prev s :
  match_at line_comment prev s = line_comment_end s.
Proof.
  unfold match_at, line_comment, line_comment_end.
  rewrite run_seq, run_alt, !run_lit_eq.
  destruct s as [|c s]; [reflexivity|].
  cbn [str list_ascii_of_string strip].
  destruct (Ascii.eqb_spec "/" c) as [<- | N1].
  - change (Ascii.eqb "#" "/") with false. cbv iota.
    destruct s as [|c' s]; [reflexivity|].
    destruct (Ascii.eqb "/" c'); [|reflexivity].
    rewrite line_rest. now destruct (line_end s).
  - destruct (Ascii.eqb "#" c); [apply line_rest | reflexivity].
Qed.

Lemma number_tail_cont p r :
  run (Opt (Seq (Cls Dot) digit)) (fun _ s' => Some s') p r
  = Some (number_tail r).
Proof.
  unfold digit. fold digits. rewrite run_opt, run_seq, run_cls.
  unfold number_tail. destruct r as [|c [|d r]]; [reflexivity| |].
  - now destruct (cclass_mem Dot c).
  - destruct (cclass_mem Dot c); [|reflexivity]. rewrite run_cls.
    now destruct (cclass_mem digits d).
Qed.

Lemma unsigned_match p s :
  run (Seq (Plus digit) (Opt (Seq (Cls Dot) digit)))
      (fun _ s' => Some s') p s
  = unsigned_end s.
Proof.
  rewrite run_seq, run_plus. unfold digit at 1 2. fold digits.
  rewrite run_cls. unfold unsigned_end.
  destruct s as [|d s]; [reflexivity|].
  destruct (cclass_mem digits d); [|reflexivity].
  apply star_class_reach; [lia | apply number_tail_cont].
Qed.

Lemma sign_not_digit c :
  cclass_mem signs c = true -> cclass_mem digits c = false.
Proof.
  cbn [cclass_mem signs chars str list_ascii_of_string map existsb citem_mem].
  destruct (Ascii.eqb_spec c "+") as [-> | _]; [reflexivity|].
  destruct (Ascii.eqb_spec c "-") as [-> | _]; [reflexivity | discriminate].
Qed.

Lemma match_number prev s : match_at number prev s = number_end s.
Proof.
  unfold match_at, number, number_end. fold signs.
  rewrite run_seq, run_opt, run_cls.
  destruct s as [|c s]; [now rewrite unsigned_match|].
  rewrite !unsigned_match. destruct (cclass_mem signs c) eqn:E; [|reflexivity].
  destruct (unsigned_end s); [reflexivity|].
  unfold unsigned_end. now rewrite (sign_not_digit _ E).
Qed.

Lemma match_separator prev s :
  match_at separator prev s = separator_end s.
Proof.
  unfold match_at, separator, separator_end, colons_end.
  cbn [run str list_ascii_of_string strip].
  destruct s as [|c1 [|c2 [|c3 [|c4 r]]]]; cbn [strip];
    repeat match goal with
           | |- context [Ascii.eqb ?a ?b] =>
               destruct (Ascii.eqb_spec a b); subst
           end;
    try reflexivity; try discriminate; congruence.
Qed.

End RunFacts.

(** ** Rounds in a row *)

Module ScanFacts.
Import Re Jsonnet Engine Shape Spec Runs.
Import ReFacts ShapeFacts EngineFacts KeywordFacts RunFacts.

Lemma emits_app c t1 c1 t2 c2 :
  emits c t1 c1 -> emits c1 t2 c2 -> emits c (t1 ++ t2) c2.
Proof.
  induction 1 as [|c t c' toks c1 E _ IH]; intros H; [exact H|].
  simpl. apply (emits_more _ _ _ _ _ E). now apply IH.
Qed.

Lemma emits_one c t c' : step c = Emit t c' -> emits c [t] c'.
Proof. intros E. apply (emits_more _ _ _ _ _ E). constructor. Qed.

Lemma emits_scan c toks c' :
  emits c toks c' -> input c' = [] -> exists fuel, scan fuel c = Done toks.
Proof.
  induction 1 as [c|c t c1 toks c2 E _ IH]; intros Hi.
  - exists 1. simpl. unfold step. now rewrite Hi.
  - destruct (IH Hi) as [fuel H]. exists (S fuel). simpl. now rewrite E, H.
Qed.

Lemma scan_agree f1 f2 c t1 t2 :
  scan f1 c = Done t1 -> scan f2 c = Done t2 -> t1 = t2.
Proof.
  intros H1 H2. apply scan_more with (extra := f2) in H1.
  apply scan_more with (extra := f1) in H2.
  rewrite Nat.add_comm in H2. congruence.
Qed.

Lemma emits_tokenize source toks c' :
  emits (start source) toks c' -> input c' = [] ->
  tokenize source = Done toks.
Proof.
  intros H Hi. destruct (emits_scan _ _ _ H Hi) as [fuel E].
  destruct (tokenize_done source) as [toks' E'].
  rewrite E'. f_equal. exact (scan_agree _ _ _ _ _ E' E).
Qed.

Lemma step_emit_input c t c' : step c = Emit t c' -> input c <> [].
Proof.
  unfold step. now destruct (input c).
Qed.

(** The scan emits no more tokens than its measure. *)
Lemma scan_count fuel : forall c toks,
  well_formed (stk c) = true -> scan fuel c = Done toks ->
  List.length toks <= measure c.
Proof.
  induction fuel as [|fuel IH]; intros c toks W; simpl; [discriminate|].
  destruct (step c) as [t c'| |] eqn:E; try discriminate.
  - destruct (step_progress c W (step_emit_input _ _ _ E))
      as (t1 & c1 & E1 & W1 & M1).
    rewrite E in E1. injection E1 as <- <-.
    destruct (scan fuel c') as [toks'| |] eqn:E'; try discriminate.
    intros [= <-]. specialize (IH _ _ W1 E'). simpl. lia.
  - intros [= <-]. simpl. lia.
Qed.

Lemma firstn_nil_inv {A} n (c : A) s : firstn n (c :: s) = [] -> n = 0.
Proof. destruct n; [reflexivity | discriminate]. Qed.

(** A round that emits an empty text was taken in a waiting state,
    leaves the text as it is and the stack in a state that is not
    waiting. *)
Lemma step_empty c ty c' :
  well_formed (stk c) = true -> step c = Emit (ty, []) c' ->
  input c' = input c /\ input c <> []
  /\ well_formed (stk c') = true
  /\ exists s below, stk c' = s :: below /\ waiting s = false.
Proof.
  intros W E. pose proof (step_emit_input _ _ _ E) as Hi.
  pose proof (step_keeps_shape _ _ _ W E) as W'.
  pose proof (step_covers _ _ _ E) as C. simpl in C.
  repeat split; [exact C | exact Hi | exact W' |].
  revert E. destruct c as [st prev s]. unfold step. cbn [stk input before].
  cbn [input] in Hi. destruct s as [|ch more]; [contradiction|].
  destruct st as [|top below]; [discriminate|].
  destruct (first_match _ _ _) as [[r rest']|] eqn:F; [|discriminate].
  apply first_match_sound in F as [Hin F].
  apply rule_ok_in in Hin. unfold rule_ok in Hin.
  destruct (may_apply (new_state r) [top]) as [tops|] eqn:Ea; [|discriminate].
  destruct (may_apply_sound _ (top :: below) [top] _ W
              (or_introl eq_refl) Ea) as (st' & -> & _ & T').
  intros [= _ Hs <-]. cbn [stk].
  destruct st' as [|s' below']; [contradiction|]. cbn [top_in] in T'.
  exists s', below'. split; [reflexivity|].
  apply match_at_after in F. pose proof (after_length _ _ _ F) as L.
  destruct F as [_ S]. unfold span in Hs. apply firstn_nil_inv in Hs.
  destruct (consuming (pattern r)).
  - specialize (S eq_refl). lia.
  - cbn [orb] in Hin. apply andb_true_iff in Hin as [_ Z].
    rewrite forallb_forall in Z. specialize (Z _ T').
    now destruct (waiting s').
Qed.

(** A round taken in a state that is not waiting emits some text. *)
Lemma step_some_text c s below t c' :
  well_formed (stk c) = true -> stk c = s :: below -> waiting s = false ->
  step c = Emit t c' -> snd t <> [].
Proof.
  destruct c as [st prev txt]. cbn [stk]. intros W -> Z.
  unfold step. cbn [stk input before].
  destruct txt as [|ch more]; [discriminate|].
  destruct (first_match _ _ _) as [[r rest']|] eqn:F.
  - apply first_match_sound in F as [Hin F].
    apply rule_ok_in in Hin. unfold rule_ok in Hin.
    destruct (may_apply (new_state r) [s]) as [tops|]; [|discriminate].
    rewrite Z in Hin. cbn [andb] in Hin. rewrite orb_false_r in Hin.
    destruct (apply_action _ _); [|discriminate].
    intros [= <- _]. cbn [snd]. unfold span.
    apply match_at_after in F. destruct F as [_ Lt]. specialize (Lt Hin).
    cbn [List.length] in *.
    destruct (S (List.length more) - List.length rest') eqn:D; [lia|].
    discriminate.
  - intros [= <- _]. discriminate.
Qed.

Lemma scan_started fuel c toks :
  scan fuel c = Done toks -> input c <> [] ->
  exists fuel' t c' toks',
    fuel = S fuel' /\ step c = Emit t c' /\ scan fuel' c' = Done toks'
    /\ toks = t :: toks'.
Proof.
  destruct fuel as [|fuel]; [discriminate|]. simpl.
  destruct (step c) as [t c'| |] eqn:E; try discriminate.
  - destruct (scan fuel c') as [toks'| |] eqn:E'; try discriminate.
    intros [= <-] _. now exists fuel, t, c', toks'.
  - intros _ Hi. unfold step in E. destruct (input c); [contradiction|].
    destruct (stk c); [discriminate|].
    destruct (first_match _ _ _) as [[r rest']|]; [|discriminate].
    destruct (apply_action _ _); discriminate.
Qed.

Lemma scan_empty_isolated fuel : forall c toks l1 ty l2,
  well_formed (stk c) = true -> scan fuel c = Done toks ->
  toks = l1 ++ (ty, []) :: l2 ->
  exists t l3, l2 = t :: l3 /\ snd t <> [].
Proof.
  induction fuel as [|fuel IH]; intros c toks l1 ty l2 W; simpl;
    [discriminate|].
  destruct (step c) as [t c'| |] eqn:E; try discriminate.
  - destruct (scan fuel c') as [toks'| |] eqn:E'; try discriminate.
    pose proof (step_keeps_shape _ _ _ W E) as W'.
    intros [= <-]. destruct l1 as [|t1 l1]; intros [= -> ->].
    + destruct (step_empty _ _ _ W E) as (Hi & Hne & _ & s & below & Es & Z).
      rewrite <- Hi in Hne.
      destruct (scan_started _ _ _ E' Hne) as (f & t & c2 & l3 & _ & E2 & _ & ->).
      exists t, l3. split; [reflexivity|].
      exact (step_some_text _ _ _ _ _ W' Es Z E2).
    + exact (IH c' _ l1 ty l2 W' E' eq_refl).
  - intros [= <-] H. now destruct l1.
Qed.

End ScanFacts.

(** ** Strings, brackets, and the characters of [root] *)

Module TableFacts.
Import Re Jsonnet Engine Shape Spec Runs.
Import ReFacts ShapeFacts EngineFacts KeywordFacts RunFacts ScanFacts.

Lemma step_word top below prev w rest r st' :
  w <> [] ->
  first_match (tokens top) prev (w ++ rest) = Some (r, rest) ->
  apply_action (new_state r) (top :: below) = Some st' ->
  step (Config (top :: below) prev (w ++ rest))
  = Emit (ttype r, w) (Config st' (last_char prev w) rest).
Proof.
  intros Hw F A. destruct w as [|ch w]; [contradiction|].
  rewrite (step_selected _ ch (w ++ rest) top below r rest st');
    try reflexivity; try assumption.
  cbn [input before]. now rewrite span_app.
Qed.

Lemma step_error top below prev ch rest :
  first_match (tokens top) prev (ch :: rest) = None ->
  step (Config (top :: below) prev (ch :: rest))
  = Emit (Error, [ch]) (Config (top :: below) (Some ch) rest).
Proof.
  intros F. unfold step. cbn [input stk before]. now rewrite F.
Qed.

Lemma tokens_string q :
  q = "'"%char \/ q = dq -> tokens (string_state q) = string_rules q.
Proof. intros [-> | ->]; reflexivity. Qed.

Lemma quote_not_backslash q :
  q = "'"%char \/ q = dq -> Ascii.eqb backslash q = false.
Proof. intros [-> | ->]; reflexivity. Qed.

(** What the three rules of a string do with the character at the
    cursor: the quote closes, a backslash takes the next character
    along unless it is a newline, anything else stands alone. *)
Lemma string_rules_match q prev s :
  Ascii.eqb backslash q = false ->
  first_match (string_rules q) prev s
  = match s with
    | c :: s' =>
        if Ascii.eqb c q then
          Some (Rule (Cls (OneOf [One q])) String_ (Pop 1), s')
        else if Ascii.eqb c backslash then
          match s' with
          | d :: s'' =>
              if cclass_mem Dot d
              then Some (rx (Seq (Cls (OneOf [One backslash])) (Cls Dot))
                            String_Escape, s'')
              else None
          | [] => None
          end
        else Some (rx (Cls (NoneOf [One q; One backslash])) String_, s')
    | [] => None
    end.
Proof.
  intros Hq. unfold string_rules, rx.
  cbn [first_match pattern]. unfold match_at.
  rewrite run_seq, !run_cls. destruct s as [|c s]; [reflexivity|].
  cbn [cclass_mem existsb citem_mem]. rewrite !orb_false_r.
  destruct (Ascii.eqb_spec c q) as [-> | Nq].
  - rewrite (Ascii.eqb_sym q backslash), Hq. reflexivity.
  - destruct (Ascii.eqb_spec c backslash) as [-> | Nb]; [|reflexivity].
    cbn [orb negb]. rewrite run_cls.
    destruct s as [|d s]; [reflexivity|].
    cbn [cclass_mem]. now destruct (negb (Ascii.eqb d "010")).
Qed.

Lemma string_char_step q below prev c more :
  q = "'"%char \/ q = dq -> c <> q -> c <> backslash ->
  step (Config (string_state q :: below) prev (c :: more))
  = Emit (String_, [c]) (Config (string_state q :: below) (Some c) more).
Proof.
  intros Hq Nq Nb.
  apply (step_word _ _ _ [c] more
           (rx (Cls (NoneOf [One q; One backslash])) String_));
    [discriminate| |reflexivity].
  rewrite (tokens_string _ Hq), string_rules_match
    by now apply quote_not_backslash.
  cbn [app]. apply Ascii.eqb_neq in Nq, Nb. now rewrite Nq, Nb.
Qed.

Lemma string_close_step q b below prev rest :
  q = "'"%char \/ q = dq ->
  step (Config (string_state q :: b :: below) prev (q :: rest))
  = Emit (String_, [q]) (Config (b :: below) (Some q) rest).
Proof.
  intros Hq.
  apply (step_word _ _ _ [q] rest (Rule (Cls (OneOf [One q])) String_ (Pop 1)));
    [discriminate| |reflexivity].
  rewrite (tokens_string _ Hq), string_rules_match
    by now apply quote_not_backslash.
  cbn [app]. now rewrite Ascii.eqb_refl.
Qed.

Lemma emits_string_body q below body : forall prev more,
  q = "'"%char \/ q = dq ->
  Forall (fun c => c <> q /\ c <> backslash) body ->
  exists p,
    emits (Config (string_state q :: below) prev (body ++ more))
          (each String_ body)
          (Config (string_state q :: below) p more).
Proof.
  induction body as [|c body IH]; intros prev more Hq Hb.
  - exists prev. constructor.
  - inversion Hb as [|c' body' [Nq Nb] Hb']; subst.
    destruct (IH (Some c) more Hq Hb') as [p H]. exists p.
    apply (emits_more _ _ (Config (string_state q :: below) (Some c)
                                  (body ++ more)));
      [|exact H].
    now apply string_char_step.
Qed.

Lemma open_quote_step q below prev rest :
  q = "'"%char \/ q = dq ->
  step (Config (root :: below) prev (q :: rest))
  = Emit (String_, [q])
         (Config (string_state q :: root :: below) (Some q) rest).
Proof.
  intros [-> | ->].
  - apply (step_word _ _ _ ["'"%char] rest
             (Rule (Lit "'") String_ (Push singlestring)));
      [discriminate | vm_compute; reflexivity | reflexivity].
  - apply (step_word _ _ _ [dq] rest
             (Rule (Lit dquote) String_ (Push doublestring)));
      [discriminate | vm_compute; reflexivity | reflexivity].
Qed.

Lemma repeat_shift {A} (a : A) n l : repeat a n ++ a :: l = a :: repeat a n ++ l.
Proof. induction n as [|n IH]; simpl; [reflexivity | now rewrite IH]. Qed.

Lemma open_bracket_step top below prev rest :
  top = root \/ top = array ->
  step (Config (top :: below) prev ("["%char :: rest))
  = Emit (Punctuation, ["["%char])
         (Config (array :: top :: below) (Some "["%char) rest).
Proof.
  intros [-> | ->];
    apply (step_word _ _ _ ["["%char] rest
             (Rule (Lit "[") Punctuation (Push array)));
    solve [discriminate | vm_compute; reflexivity | reflexivity].
Qed.

Lemma close_bracket_step b below prev rest :
  step (Config (array :: b :: below) prev ("]"%char :: rest))
  = Emit (Punctuation, ["]"%char]) (Config (b :: below) (Some "]"%char) rest).
Proof.
  apply (step_word _ _ _ ["]"%char] rest
           (Rule (Lit "]") Punctuation (Pop 1)));
    solve [discriminate | vm_compute; reflexivity | reflexivity].
Qed.

Lemma emits_opens n : forall top below prev rest,
  top = root \/ top = array ->
  exists p,
    emits (Config (top :: below) prev (repeat "["%char n ++ rest))
          (each Punctuation (repeat "["%char n))
          (Config (repeat array n ++ top :: below) p rest).
Proof.
  induction n as [|n IH]; intros top below prev rest Ht.
  - exists prev. constructor.
  - destruct (IH array (top :: below) (Some "["%char) rest) as [p H];
      [now right|].
    exists p. rewrite repeat_shift in H.
    apply (emits_more _ _ _ _ _ (open_bracket_step _ _ _ _ Ht)). exact H.
Qed.

Lemma emits_closes n : forall b below prev rest,
  exists p,
    emits (Config (repeat array n ++ b :: below) prev
                  (repeat "]"%char n ++ rest))
          (each Punctuation (repeat "]"%char n))
          (Config (b :: below) p rest).
Proof.
  induction n as [|n IH]; intros b below prev rest.
  - exists prev. constructor.
  - destruct (IH b below (Some "]"%char) rest) as [p H]. exists p.
    cbn [repeat app each map].
    destruct (repeat array n ++ b :: below) as [|b' below'] eqn:E.
    + now destruct n.
    + apply (emits_more _ _ _ _ _ (close_bracket_step _ _ _ _)). exact H.
Qed.

(** No rule of [root] starts with a character outside [root_start]. *)
Lemma root_no_rule c prev rest :
  root_start c = false -> first_match (tokens root) prev (c :: rest) = None.
Proof.
  intros H.
  destruct c as [[] [] [] [] [] [] [] []];
    first [ discriminate H | vm_compute; reflexivity ].
Qed.

(** At [root] a listed word other than [assert], with no identifier
    character after it, is matched by the rule of the listed words. *)
Lemma listed_selected w prev rest :
  In w keyword_list -> w <> "assert"%string -> next_ident rest = false ->
  first_match (tokens root) prev (str w ++ rest)
  = Some (rx (Seq keywords (NotAhead jsonnet_token_chars)) Keyword, rest).
Proof.
  intros Hin Hw H. unfold keyword_list in Hin. cbn [In] in Hin.
  repeat (destruct Hin as [<- | Hin];
          [ first
              [ exfalso; apply Hw; reflexivity
              | destruct rest as [|c rest];
                [ vm_compute; reflexivity
                | cbn [next_ident] in H;
                  destruct c as [[] [] [] [] [] [] [] []];
                  first [ discriminate H | vm_compute; reflexivity ] ] ]
          | ]).
  destruct Hin.
Qed.

End TableFacts.

(** ** Keywords, state by state *)

Module KeywordStateFacts.
Import Re Jsonnet Engine Shape Spec Runs.
Import ReFacts ShapeFacts EngineFacts KeywordFacts RunFacts ScanFacts TableFacts.

(** Where the rules that emit [Keyword] are, and with what pattern:
    in the states with [rvalues], and in [object] for [local] and
    [assert], there with a word boundary each. *)
Lemma keyword_rules_state s r :
  In r (tokens s) -> ttype r = Keyword ->
  (value_state s = true
   /\ (pattern r = Seq (Lit "local") WordB
       \/ pattern r = Lit "assert"
       \/ pattern r = Seq keywords (NotAhead jsonnet_token_chars)
       \/ pattern r = Seq (Lit "function") (Ahead (Lit "("))))
  \/ (s = object
      /\ (pattern r = Seq (Lit "local") WordB
          \/ pattern r = Seq (Lit "assert") WordB)).
Proof.
  intros Hin Ht.
  destruct s;
    cbv [tokens rvalues comments string_rules quoted_field_name rx app]
      in Hin;
    repeat (destruct Hin as [<- | Hin];
            [ cbn [ttype pattern] in *;
              first [ discriminate
                    | left; split; [reflexivity | tauto]
                    | right; split; [reflexivity | tauto] ] | ]);
    destruct Hin.
Qed.

Lemma listed_rule_match prev s rest :
  match_at (Seq keywords (NotAhead jsonnet_token_chars)) prev s = Some rest ->
  exists w, In w keyword_list /\ s = str w ++ rest
            /\ next_ident rest = false.
Proof.
  intros H. rewrite match_at_seq in H.
  apply run_words in H as (w & s' & Hin & -> & H).
  apply run_not_ahead_class in H as [N [= ->]].
  exists w. split; [exact Hin|]. split; [reflexivity|].
  destruct rest as [|c rest]; [reflexivity | exact N].
Qed.

Lemma function_rule_match prev s rest :
  match_at (Seq (Lit "function") (Ahead (Lit "("))) prev s = Some rest ->
  s = str "function" ++ rest /\ next_ident rest = false.
Proof.
  intros H. rewrite match_at_seq in H.
  apply run_lit in H as (s' & -> & H). cbn [run] in H.
  destruct (strip (str "(") s') as [s1|] eqn:E; cbn [is_some] in H;
    [|discriminate].
  injection H as <-. apply strip_app in E. subst s'.
  split; reflexivity.
Qed.

Lemma assert_rule_match prev s rest :
  match_at (Lit "assert") prev s = Some rest -> s = str "assert" ++ rest.
Proof.
  unfold match_at. intros H. now apply run_lit in H as (s' & -> & [= ->]).
Qed.

Lemma in_reserved_local : In (str "local") reserved.
Proof. apply in_or_app. right. now left. Qed.

Lemma in_reserved_function : In (str "function") reserved.
Proof. apply in_or_app. right. right. now left. Qed.

Lemma in_reserved_assert : In (str "assert") reserved.
Proof. apply in_reserved_listed. now left. Qed.

(** A round that emits a keyword: in which state, which word, and
    what follows it. *)
Lemma step_keyword_state c txt c' :
  step c = Emit (Keyword, txt) c' ->
  exists top,
    top_state c = Some top
    /\ In txt reserved
    /\ (value_state top = true
        \/ (top = object /\ (txt = str "local" \/ txt = str "assert")))
    /\ (next_ident (input c') = false
        \/ (txt = str "assert" /\ value_state top = true)).
Proof.
  unfold step, top_state.
  destruct (input c) as [|ch more] eqn:Ei; [discriminate|].
  destruct (stk c) as [|top below]; [discriminate|].
  destruct (first_match _ _ _) as [[r rest]|] eqn:E; [|discriminate].
  destruct (apply_action _ _); [|discriminate].
  intros [= Ht <- <-]. cbn [input hd_error].
  apply first_match_sound in E as [Hin E]. exists top.
  split; [reflexivity|].
  destruct (keyword_rules_state _ _ Hin Ht)
    as [[V [P | [P | [P | P]]]] | [-> [P | P]]];
    rewrite P in E.
  - apply run_word_boundary in E as [-> N]; [|reflexivity].
    rewrite span_app. auto using in_reserved_local.
  - apply assert_rule_match in E. rewrite E, span_app.
    auto 6 using in_reserved_assert.
  - apply listed_rule_match in E as (w & Hw & -> & N).
    rewrite span_app. auto using in_reserved_listed.
  - apply function_rule_match in E as [-> N].
    rewrite span_app. auto using in_reserved_function.
  - apply run_word_boundary in E as [-> N]; [|reflexivity].
    rewrite span_app. auto 6 using in_reserved_local.
  - apply run_word_boundary in E as [-> N]; [|reflexivity].
    rewrite span_app. auto 6 using in_reserved_assert.
Qed.

Lemma reserved_ident txt : In txt reserved -> forallb ident_char txt = true.
Proof.
  intros H. apply in_app_or in H as [H | H].
  - apply in_map_iff in H as (w & <- & H).
    unfold keyword_list in H. cbn [In] in H.
    repeat (destruct H as [<- | H]; [reflexivity|]). destruct H.
  - cbn [In] in H.
    repeat (destruct H as [<- | H]; [reflexivity|]). destruct H.
Qed.

(** The identifier at the head of a text is one: two runs of
    identifier characters, each with no identifier character after
    it, are the same run. *)
Lemma ident_prefix_unique a : forall a' b b',
  forallb ident_char a = true -> forallb ident_char a' = true ->
  next_ident b = false -> next_ident b' = false ->
  a ++ b = a' ++ b' -> a = a'.
Proof.
  induction a as [|c a IH]; intros [|c' a'] b b' Ha Ha' Hb Hb' E.
  - reflexivity.
  - cbn [app] in E. subst b. cbn [next_ident] in Hb.
    cbn [forallb] in Ha'. apply andb_true_iff in Ha' as [Hc _]. congruence.
  - cbn [app] in E. subst b'. cbn [next_ident] in Hb'.
    cbn [forallb] in Ha. apply andb_true_iff in Ha as [Hc _]. congruence.
  - cbn [app] in E. injection E as -> E.
    cbn [forallb] in Ha, Ha'.
    apply andb_true_iff in Ha as [_ Ha]. apply andb_true_iff in Ha' as [_ Ha'].
    f_equal. exact (IH a' b b' Ha Ha' Hb Hb' E).
Qed.

Lemma first_match_prefix pre rules prev s :
  first_match pre prev s = None ->
  first_match (pre ++ rules) prev s = first_match rules prev s.
Proof.
  induction pre as [|r pre IH]; [reflexivity|]. cbn [app first_match].
  destruct (match_at (pattern r) prev s); [discriminate | exact IH].
Qed.

(** In a state with [rvalues] the rules before them do not match a
    listed word. *)
Lemma value_prefix st w prev rest :
  value_state st = true -> In w keyword_list ->
  first_match (tokens st) prev (str w ++ rest)
  = first_match rvalues prev (str w ++ rest).
Proof.
  intros Hv Hin. unfold keyword_list in Hin. cbn [In] in Hin.
  destruct st; try discriminate Hv; try reflexivity;
    unfold tokens; apply first_match_prefix;
    repeat (destruct Hin as [<- | Hin]; [vm_compute; reflexivity|]);
    destruct Hin.
Qed.

Lemma assert_selected prev rest :
  first_match rvalues prev (str "assert" ++ rest)
  = Some (Rule (Lit "assert") Keyword (Push assert), rest).
Proof. vm_compute. reflexivity. Qed.

Lemma listed_nonempty_word w : In w keyword_list -> str w <> [].
Proof.
  unfold keyword_list. cbn [In].
  intros H; repeat (destruct H as [<- | H]; [discriminate|]); destruct H.
Qed.

(** In a state with [rvalues] a listed word with no identifier
    character after it is one keyword token. *)
Lemma listed_keyword_step st below prev w rest :
  value_state st = true -> In w keyword_list -> next_ident rest = false ->
  step (Config (st :: below) prev (str w ++ rest))
  = Emit (Keyword, str w)
         (Config (if String.eqb w "assert" then assert :: st :: below
                  else st :: below)
                 (last_char prev (str w)) rest).
Proof.
  intros Hv Hin H. destruct (String.eqb_spec w "assert") as [-> | Nw].
  - apply (step_word st below prev (str "assert") rest
             (Rule (Lit "assert") Keyword (Push assert)));
      [discriminate | | reflexivity].
    rewrite (value_prefix _ _ _ _ Hv Hin). apply assert_selected.
  - apply (step_word st below prev (str w) rest
             (rx (Seq keywords (NotAhead jsonnet_token_chars)) Keyword));
      [now apply listed_nonempty_word | | reflexivity].
    rewrite (value_prefix _ _ _ _ Hv Hin).
    exact (listed_selected w prev rest Hin Nw H).
Qed.

(** Every token of a scan is emitted by a round taken in a
    configuration the scan goes through, with the rest of the tokens
    covering the text left. *)
Lemma scan_emitted fuel c0 : forall c toks l1 t l2,
  scan fuel c = Done toks -> reaches c0 c -> toks = l1 ++ t :: l2 ->
  exists c1 c', reaches c0 c1 /\ step c1 = Emit t c' /\ input c' = texts l2.
Proof.
  induction fuel as [|fuel IH]; intros c toks l1 t l2; simpl;
    [discriminate|].
  destruct (step c) as [t0 c'| |] eqn:E; try discriminate.
  - destruct (scan fuel c') as [toks'| |] eqn:E'; try discriminate.
    intros [= <-] Hr. destruct l1 as [|t1 l1]; intros [= -> ->].
    + exists c, c'. split; [exact Hr|]. split; [exact E|].
      symmetry. exact (scan_covers _ _ _ E').
    + exact (IH c' _ l1 t l2 E' (reaches_step _ _ _ _ Hr E) eq_refl).
  - intros [= <-] _ H. now destruct l1.
Qed.

(** The states with [rvalues] are those of [value_state]. *)
Lemma value_state_tables s :
  value_state s = true <-> exists pre, tokens s = pre ++ rvalues.
Proof.
  split.
  - destruct s; try discriminate; intros _;
      solve [ exists []; reflexivity | unfold tokens; eexists; reflexivity ].
  - intros [pre E]. destruct s; try reflexivity; exfalso;
      apply (f_equal (@List.length rule)) in E; rewrite length_app in E;
      simpl in E; lia.
Qed.

End KeywordStateFacts.

(** ** The rounds of the lookahead rules *)

Module LookaheadFacts.
Import Re Jsonnet Engine Shape Spec Runs.
Import ReFacts ShapeFacts EngineFacts KeywordFacts RunFacts ScanFacts TableFacts.

(** A lookahead needs a character to look at. *)
Lemma lookahead_needs_text s r prev :
  In (s, r) lookahead_rules -> match_at (pattern r) prev [] = None.
Proof.
  intros [[= <- <-] | [[= <- <-] | [[= <- <-] | []]]]; reflexivity.
Qed.

(** The state a lookahead rule belongs to is the one on top. *)
Lemma lookahead_state s r top :
  In (s, r) lookahead_rules -> In r (tokens top) -> top = s.
Proof.
  intros Hin Hr.
  assert (consuming (pattern r) = false) as Hc
    by (destruct Hin as [[= <- <-] | [[= <- <-] | [[= <- <-] | []]]];
        reflexivity).
  pose proof (only_lookahead_rules top r Hr Hc) as Ht.
  destruct Hin as [[= <- <-] | [[= <- <-] | [[= <- <-] | []]]];
    destruct Ht as [E | [E | [E | []]]];
    first [ discriminate E | exact (eq_sym (f_equal fst E)) ].
Qed.

(** The round of a lookahead rule, from a well-formed stack: an empty
    token, the cursor where it was, and the stack changed as the rule
    says. *)
Lemma lookahead_step c r rest :
  well_formed (stk c) = true ->
  selected c = Some (r, rest) ->
  (exists s, In (s, r) lookahead_rules) ->
  exists c',
    step c = Emit (ttype r, []) c'
    /\ input c' = input c /\ before c' = before c
    /\ apply_action (new_state r) (stk c) = Some (stk c')
    /\ stk c' <> stk c
    /\ ((exists below,
           stk c = object :: below
           /\ stk c' = field_name :: object :: below)
        \/ (exists below,
              stk c = local_name :: below
              /\ stk c' = local_value :: below)
        \/ (exists below,
              stk c = function_param_default :: function_params :: below
              /\ stk c' = function_params :: below)).
Proof.
  intros W Hsel [s Hin].
  destruct (selected_sound _ _ _ Hsel) as (top & below & Es & Hr & Ef & Em).
  pose proof (lookahead_state _ _ _ Hin Hr) as ->.
  destruct c as [st prev txt]. cbn [stk before input] in *. subst st.
  destruct txt as [|ch more];
    [now rewrite (lookahead_needs_text _ _ prev Hin) in Em|].
  assert (rest = ch :: more) as ->.
  { destruct Hin as [[= <- <-] | [[= <- <-] | [[= <- <-] | []]]];
      exact (match_at_ahead _ _ _ _ Em). }
  assert (forall st',
             apply_action (new_state r) (s :: below) = Some st' ->
             step (Config (s :: below) prev (ch :: more))
             = Emit (ttype r, []) (Config st' prev (ch :: more))) as Hstep.
  { intros st' A.
    rewrite (step_selected (Config (s :: below) prev (ch :: more)) ch more
               s below r (ch :: more) st' eq_refl eq_refl Ef A).
    cbn [input before]. now rewrite span_same. }
  destruct Hin as [[= <- <-] | [[= <- <-] | [[= <- <-] | []]]].
  - exists (Config (field_name :: object :: below) prev (ch :: more)).
    split; [now apply Hstep|]. cbn [input before stk].
    repeat split; try reflexivity; [discriminate|].
    left. now exists below.
  - destruct (well_formed_below _ _ W) as (b & more' & -> & _ & _);
      [discriminate|].
    exists (Config (local_value :: b :: more') prev (ch :: more)).
    split; [now apply Hstep|]. cbn [input before stk].
    repeat split; try reflexivity; [discriminate|].
    right. left. now exists (b :: more').
  - destruct (well_formed_below _ _ W) as (b & more' & -> & U & _);
      [discriminate|].
    cbn [under] in U. apply state_eqb_eq in U. subst b.
    exists (Config (function_params :: more') prev (ch :: more)).
    split; [now apply Hstep|]. cbn [input before stk].
    repeat split; try reflexivity; [discriminate|].
    right. right. now exists more'.
Qed.

End LookaheadFacts.

(** * The properties of the lexer *)

Import Re Jsonnet Engine Shape Spec ReFacts ShapeFacts EngineFacts KeywordFacts.
Import Runs RunFacts ScanFacts TableFacts KeywordStateFacts LookaheadFacts.

(** C1. For every source text the scan completes, and the texts of
    the emitted tokens, concatenated in the order of emission, are the
    source: nothing is skipped, nothing is covered twice, nothing is
    reordered. *)
Theorem tokenize_covers_source (source : text) :
  exists toks, tokenize source = Done toks /\ texts toks = source.
Proof.
  destruct (tokenize_done source) as [toks E]. exists toks.
  split; [exact E|]. exact (scan_covers _ _ _ E).
Qed.

(** C2. For every source text the scan runs to completion: it never
    runs out of rounds and never fails on the stack, and more rounds
    than the two per character it is given change nothing.  The empty
    text gives no token; brackets, a string, a comment left open give
    their tokens; an object left open after an unterminated field name
    ends in [Error] tokens. *)
Theorem tokenize_total :
  (forall source, exists toks,
      tokenize source = Done toks /\
      forall extra,
        scan (S (2 * List.length source) + extra) (start source) = Done toks)
  /\ tokenize [] = Done []
  /\ tokenize (str "[[[{")
     = Done [ (Punctuation, str "["); (Punctuation, str "[");
              (Punctuation, str "["); (Punctuation, str "{") ]
  /\ tokenize (str "'ab")
     = Done [ (String_, str "'"); (String_, str "a"); (String_, str "b") ]
  /\ tokenize (str "/* x")
     = Done [ (Operator, str "/"); (Operator, str "*");
              (Whitespace, str " "); (Name_Variable, str "x") ]
  /\ tokenize (str "{" ++ [dq] ++ str "ab")
     = Done [ (Punctuation, str "{"); (Name_Variable, [dq]);
              (Error, str "a"); (Error, str "b") ].
Proof.
  split; [|repeat apply conj; vm_compute; reflexivity].
  intros source. destruct (tokenize_done source) as [toks E].
  exists toks. split; [exact E|]. intros extra.
  now apply scan_more.
Qed.

(** C3, as stated, fails: the scan of "{a: 1, b:: 2}" does not give
    the twelve listed tokens alone. *)
Lemma object_fields_twelve_tokens_fails :
  tokenize (str "{a: 1, b:: 2}")
  <> Done [ (Punctuation, str "{"); (Name_Variable, str "a");
            (Punctuation, str ":"); (Whitespace, str " ");
            (Number_Float, str "1"); (Punctuation, str ",");
            (Whitespace, str " "); (Name_Variable, str "b");
            (Punctuation, str "::"); (Whitespace, str " ");
            (Number_Float, str "2"); (Punctuation, str "}") ].
Proof. vm_compute. discriminate. Qed.

(** C3, amended.  The scan of "{a: 1, b:: 2}" gives the twelve listed
    tokens and, before each field name, one [Name_Variable] token with
    no text; leaving the empty tokens out gives the twelve.  The stack
    after each token shows the pops: the separator pops two entries
    ([field_separator], [field_name]) and pushes [field_value], the
    comma pops one ([field_value]), the closing brace pops two
    ([field_value] and [object]) and the scan ends in [root]. *)
Theorem object_fields_tokens :
  let toks :=
    [ (Punctuation, str "{"); (Name_Variable, []);
      (Name_Variable, str "a"); (Punctuation, str ":");
      (Whitespace, str " "); (Number_Float, str "1");
      (Punctuation, str ","); (Whitespace, str " ");
      (Name_Variable, []); (Name_Variable, str "b");
      (Punctuation, str "::"); (Whitespace, str " ");
      (Number_Float, str "2"); (Punctuation, str "}") ] in
  tokenize (str "{a: 1, b:: 2}") = Done toks
  /\ filter nonempty toks
     = [ (Punctuation, str "{"); (Name_Variable, str "a");
         (Punctuation, str ":"); (Whitespace, str " ");
         (Number_Float, str "1"); (Punctuation, str ",");
         (Whitespace, str " "); (Name_Variable, str "b");
         (Punctuation, str "::"); (Whitespace, str " ");
         (Number_Float, str "2"); (Punctuation, str "}") ]
  /\ stacks 14 (start (str "{a: 1, b:: 2}"))
     = [ [object; root];
         [field_name; object; root];
         [field_separator; field_name; object; root];
         [field_value; object; root];
         [field_value; object; root];
         [field_value; object; root];
         [object; root];
         [object; root];
         [field_name; object; root];
         [field_separator; field_name; object; root];
         [field_value; object; root];
         [field_value; object; root];
         [field_value; object; root];
         [root] ].
Proof. repeat apply conj; vm_compute; reflexivity. Qed.

(** C4, as stated, fails.  By the design of the tables: in
    "{for: 1}" the listed word [for], followed by a colon, is a field
    name and not a keyword, the listed words being keywords only in the
    states with [rvalues]; in "local" and in "function(x) x" the
    keyword token is not a listed word, [local] and [function] having
    rules of their own.  And by the rule of [assert] in [rvalues],
    which has no boundary after the word: in "assertion" the keyword
    [assert] is followed by an identifier character. *)
Lemma keyword_claim_fails :
  ~ keyword_if (str "{for: 1}")
  /\ ~ keyword_only_if (str "local")
  /\ ~ keyword_only_if (str "function(x) x")
  /\ ~ keyword_only_if (str "assertion").
Proof.
  split; [|split; [|split]].
  - intros H.
    specialize (H [ (Punctuation, str "{"); (Name_Variable, []);
                    (Name_Variable, str "for"); (Punctuation, str ":");
                    (Whitespace, str " "); (Number_Float, str "1");
                    (Punctuation, str "}") ]
                  [ (Punctuation, str "{"); (Name_Variable, []) ]
                  Name_Variable (str "for")
                  [ (Punctuation, str ":"); (Whitespace, str " ");
                    (Number_Float, str "1"); (Punctuation, str "}") ]).
    assert (Name_Variable = Keyword) as E; [|discriminate E].
    apply H.
    + vm_compute. reflexivity.
    + reflexivity.
    + apply (in_map str keyword_list "for"%string). simpl. tauto.
    + reflexivity.
  - intros H.
    destruct (H [(Keyword, str "local")] [] (str "local") []) as [Hin _].
    + vm_compute. reflexivity.
    + reflexivity.
    + revert Hin. vm_compute. intuition discriminate.
  - intros H.
    destruct (H [ (Keyword, str "function"); (Punctuation, str "(");
                  (Name_Variable, str "x"); (Punctuation, str ")");
                  (Whitespace, str " "); (Name_Variable, str "x") ]
                [] (str "function")
                [ (Punctuation, str "("); (Name_Variable, str "x");
                  (Punctuation, str ")"); (Whitespace, str " ");
                  (Name_Variable, str "x") ]) as [Hin _].
    + vm_compute. reflexivity.
    + reflexivity.
    + revert Hin. vm_compute. intuition discriminate.
  - intros H.
    destruct (H [ (Keyword, str "assert"); (Name_Variable, str "ion") ]
                [] (str "assert") [ (Name_Variable, str "ion") ])
      as [_ N].
    + vm_compute. reflexivity.
    + reflexivity.
    + discriminate N.
Qed.

(** C4, amended.  A token is classified as a keyword only in a state
    with [rvalues], or in [object] when it is [local] or [assert], and
    only if its text is one of the listed words, [local] or
    [function].  No identifier character follows the token, so that a
    keyword is always the whole identifier at the cursor and an
    identifier that merely begins with a reserved word ([forever],
    [fortunate]) is never classified as a keyword; left out of this is
    the [assert] of the states with [rvalues], whose rule has no
    boundary.  In every state with [rvalues] a listed word followed by
    the end of the text or by a character that is not an identifier
    character is classified as a keyword.  The states with [rvalues]
    are those whose table ends with them. *)
Theorem keyword_boundary :
  (forall source toks l1 txt l2,
      tokenize source = Done toks -> toks = l1 ++ (Keyword, txt) :: l2 ->
      In txt reserved
      /\ (txt <> str "assert" -> next_ident (texts l2) = false)
      /\ exists c c' top,
           reaches (start source) c
           /\ step c = Emit (Keyword, txt) c'
           /\ input c' = texts l2
           /\ top_state c = Some top
           /\ (value_state top = true
               \/ (top = object
                   /\ (txt = str "local" \/ txt = str "assert")))
           /\ (next_ident (texts l2) = false
               \/ (txt = str "assert" /\ value_state top = true)))
  /\ tokenize (str "forever") = Done [(Name_Variable, str "forever")]
  /\ tokenize (str "fortunate") = Done [(Name_Variable, str "fortunate")]
  /\ (forall rest,
        next_ident rest = false ->
        step (start (str "for" ++ rest))
        = Emit (Keyword, str "for") (Config [root] (Some "r"%char) rest))
  /\ tokenize (str "forever(1)")
     = Done [ (Name_Function, str "forever"); (Punctuation, str "(");
              (Number_Float, str "1"); (Punctuation, str ")") ]
  /\ (forall c txt c',
        step c = Emit (Keyword, txt) c' ->
        exists top,
          top_state c = Some top
          /\ In txt reserved
          /\ (value_state top = true
              \/ (top = object
                  /\ (txt = str "local" \/ txt = str "assert")))
          /\ (next_ident (input c') = false
              \/ (txt = str "assert" /\ value_state top = true)))
  /\ (forall c txt c' id rest,
        step c = Emit (Keyword, txt) c' ->
        input c = id ++ rest ->
        forallb ident_char id = true -> next_ident rest = false ->
        txt = id
        \/ (txt = str "assert"
            /\ exists top, top_state c = Some top /\ value_state top = true))
  /\ (forall st below prev w rest,
        value_state st = true -> In w keyword_list ->
        next_ident rest = false ->
        step (Config (st :: below) prev (str w ++ rest))
        = Emit (Keyword, str w)
               (Config (if String.eqb w "assert"
                        then assert :: st :: below
                        else st :: below)
                       (last_char prev (str w)) rest))
  /\ (forall s,
        value_state s = true <-> exists pre, tokens s = pre ++ rvalues).
Proof.
  repeat apply conj.
  - intros source toks l1 txt l2 H E.
    destruct (scan_keywords _ _ _ _ _ _ H E) as [Hin N].
    split; [exact Hin|]. split; [exact N|].
    destruct (scan_emitted _ _ _ _ _ _ _ H (reaches_start _) E)
      as (c & c' & Hr & Hs & Hi).
    destruct (step_keyword_state _ _ _ Hs) as (top & Ht & _ & Hv & Hb).
    rewrite Hi in Hb. exists c, c', top. repeat split; assumption.
  - vm_compute. reflexivity.
  - vm_compute. reflexivity.
  - intros rest H.
    rewrite (step_selected (start (str "for" ++ rest)) "f"%char
               (str "or" ++ rest) root []
               (rx (Seq keywords (NotAhead jsonnet_token_chars)) Keyword)
               rest [root]); try reflexivity.
    + cbn [ttype rx start input before]. now rewrite span_app.
    + now apply for_selected.
  - vm_compute. reflexivity.
  - exact step_keyword_state.
  - intros c txt c' id rest Hs Ei Hid Hr.
    destruct (step_keyword_state _ _ _ Hs) as (top & Ht & Hin & _ & [N | [E V]]).
    + left. pose proof (step_covers _ _ _ Hs) as C. cbn [snd] in C.
      rewrite Ei in C.
      exact (ident_prefix_unique _ _ _ _ (reserved_ident _ Hin) Hid N Hr C).
    + right. split; [exact E|]. now exists top.
  - exact listed_keyword_step.
  - exact value_state_tables.
Qed.

Lemma keyword_boundary_witness :
  tokenize (str "for x")
  = Done [ (Keyword, str "for"); (Whitespace, str " ");
           (Name_Variable, str "x") ]
  /\ In (str "for") reserved
  /\ next_ident (str " x") = false
  /\ step (start (str "for x"))
     = Emit (Keyword, str "for") (Config [root] (Some "r"%char) (str " x"))
  /\ step (Config [array; root] (Some "["%char) (str "true]"))
     = Emit (Keyword, str "true")
            (Config [array; root] (Some "e"%char) (str "]")).
Proof.
  assert (tokenize (str "for x")
          = Done [ (Keyword, str "for"); (Whitespace, str " ");
                   (Name_Variable, str "x") ]) as E
    by (vm_compute; reflexivity).
  split; [exact E|].
  destruct (proj1 keyword_boundary (str "for x") _ [] (str "for")
              [ (Whitespace, str " "); (Name_Variable, str "x") ]
              E eq_refl) as (Hin & N & _).
  split; [exact Hin|].
  assert (str "for" <> str "assert") as D by discriminate.
  split; [exact (N D)|]. split.
  - exact (proj1 (proj2 (proj2 (proj2 keyword_boundary))) (str " x") (N D)).
  - refine (proj1 (proj2 (proj2 (proj2 (proj2 (proj2 (proj2 (proj2
              keyword_boundary)))))))
              array [root] (Some "["%char) "true"%string (str "]") eq_refl _
              eq_refl).
    simpl. tauto.
Defined.

(** C5. "/** doc */" is one token of the documentation category
    ([String_Doc] in the tables), "/* plain */" is one token of the
    plain comment category ([Comment]), and "// line" with its newline
    is one comment token ([Comment_Single]) whose text ends with the
    newline. *)
Theorem comment_classification :
  tokenize (str "/** doc */") = Done [(String_Doc, str "/** doc */")]
  /\ categorized (tokenize (str "/** doc */"))
     = [(CComment_Documentation, "/** doc */"%string)]
  /\ tokenize (str "/* plain */") = Done [(Comment, str "/* plain */")]
  /\ categorized (tokenize (str "/* plain */"))
     = [(CComment, "/* plain */"%string)]
  /\ tokenize (str "// line" ++ [newline])
     = Done [(Comment_Single, str "// line" ++ [newline])]
  /\ map fst (categorized (tokenize (str "// line" ++ [newline])))
     = [CComment].
Proof. repeat apply conj; vm_compute; reflexivity. Qed.

(** C6, at the input where the tables depart from it: the text "1x2"
    is one [Number_Float] token, and it is not of the shape sign,
    digits, full stop, digit.  The full stop of the pattern of numbers
    stands for any character but a newline. *)
Theorem number_rule_any_character :
  first_match rvalues None (str "1x2")
  = Some (rx (Seq (Opt (Cls (OneOf (chars "+-"))))
                  (Seq (Plus digit) (Opt (Seq (Cls Dot) digit))))
             Number_Float, [])
  /\ tokenize (str "1x2") = Done [(Number_Float, str "1x2")]
  /\ number_shape (str "1x2") = false
  /\ number_shape (str "-12.5") = true
  /\ tokenize (str "[1,2]")
     = Done [ (Punctuation, str "["); (Number_Float, str "1,2");
              (Punctuation, str "]") ].
Proof. repeat apply conj; vm_compute; reflexivity. Qed.

(** C7. Where no rule of the state on top of the stack matches, the
    round emits one [Error] token that covers the one character at the
    cursor, moves the cursor by that one character, leaves the stack
    alone, and the scan goes on from there.  A colon never matches a
    rule of [root], so a stray colon is such an [Error] token and not
    an operator. *)
Theorem error_fallback :
  (forall top below prev ch rest,
      first_match (tokens top) prev (ch :: rest) = None ->
      let c := Config (top :: below) prev (ch :: rest) in
      let c' := Config (top :: below) (Some ch) rest in
      step c = Emit (Error, [ch]) c'
      /\ forall fuel, scan (S fuel) c = emit (Error, [ch]) (scan fuel c'))
  /\ (forall prev rest, first_match (tokens root) prev (":"%char :: rest) = None)
  /\ tokenize (str ":") = Done [(Error, str ":")]
  /\ tokenize (str "a : b")
     = Done [ (Name_Variable, str "a"); (Whitespace, str " ");
              (Error, str ":"); (Whitespace, str " ");
              (Name_Variable, str "b") ].
Proof.
  split; [|split; [|split; vm_compute; reflexivity]].
  - intros top below prev ch rest H c c'.
    assert (step c = Emit (Error, [ch]) c') as E.
    { unfold step, c. simpl. now rewrite H. }
    split; [exact E|]. intros fuel. simpl. now rewrite E.
  - intros prev rest. vm_compute. reflexivity.
Qed.

Lemma error_fallback_witness :
  first_match (tokens double_field_name) (Some dq) (str "ab") = None
  /\ step (Config [double_field_name; object; root] (Some dq) (str "ab"))
     = Emit (Error, str "a")
            (Config [double_field_name; object; root] (Some "a"%char)
                    (str "b")).
Proof.
  assert (first_match (tokens double_field_name) (Some dq) (str "ab") = None)
    as H by (vm_compute; reflexivity).
  split; [exact H|].
  exact (proj1 (proj1 error_fallback double_field_name [object; root]
                      (Some dq) "a"%char (str "b") H)).
Defined.

(** C8. "foo(1)" gives [foo] as a function name, then the opening
    parenthesis as punctuation; the name pushes [function_args], which
    is on top while the parenthesis and [1], a number, are read, and
    the closing parenthesis, punctuation, pops back to [root].
    "std.foo(" gives [std.foo] as one builtin function name. *)
Theorem function_call_detection :
  tokenize (str "foo(1)")
  = Done [ (Name_Function, str "foo"); (Punctuation, str "(");
           (Number_Float, str "1"); (Punctuation, str ")") ]
  /\ stacks 4 (start (str "foo(1)"))
     = [ [function_args; root]; [function_args; root];
         [function_args; root]; [root] ]
  /\ tokenize (str "std.foo(")
     = Done [ (Name_Builtin, str "std.foo"); (Punctuation, str "(") ]
  /\ categorized (tokenize (str "std.foo("))
     = [ (CName_Builtin_Function, "std.foo"%string);
         (CPunctuation, "("%string) ].
Proof. repeat apply conj; vm_compute; reflexivity. Qed.

(** C9. In every configuration a scan goes through, the stack is
    well formed, its bottom entry is [root], and the round taken there
    does not pop past that entry; under [field_separator],
    [field_value] and [object_local_value], the states whose rules pop
    two levels, lie two entries at least.  So no source text makes
    the scan fail on the stack. *)
Theorem no_stack_underflow (source : text) (c : config) :
  reaches (start source) c ->
  well_formed (stk c) = true
  /\ (exists up, stk c = up ++ [root])
  /\ step c <> Underflow
  /\ (forall s below,
        stk c = s :: below ->
        s = field_separator \/ s = field_value \/ s = object_local_value ->
        2 < List.length (stk c))
  /\ tokenize source <> StackUnderflow.
Proof.
  intros H. pose proof (reaches_shape _ _ H) as W.
  split; [exact W|]. split; [now apply well_formed_bottom|].
  split; [now apply step_no_underflow|]. split.
  - intros s below E Hs. rewrite E in *. now apply two_below.
  - destruct (tokenize_done source) as [toks E]. congruence.
Qed.

Lemma no_stack_underflow_witness :
  let c := Config [field_separator; field_name; object; root]
                  (Some "a"%char) (str ": 1}") in
  reaches (start (str "{a: 1}")) c
  /\ step c <> Underflow /\ 2 < List.length (stk c).
Proof.
  intros c.
  assert (reaches (start (str "{a: 1}")) c) as H.
  { apply (reaches_step _
             (Config [field_name; object; root] (Some "{"%char) (str "a: 1}"))
             (Name_Variable, str "a")); [|vm_compute; reflexivity].
    apply (reaches_step _
             (Config [object; root] (Some "{"%char) (str "a: 1}"))
             (Name_Variable, [])); [|vm_compute; reflexivity].
    apply (reaches_step _ (start (str "{a: 1}")) (Punctuation, str "{"));
      [|vm_compute; reflexivity].
    apply reaches_start. }
  split; [exact H|].
  destruct (no_stack_underflow (str "{a: 1}") c H) as (_ & _ & U & D & _).
  split; [exact U|]. apply (D field_separator [field_name; object; root]).
  - reflexivity.
  - left. reflexivity.
Defined.

(** C10. When the rule a round selects is one of the three lookahead
    rules (of [object], of [local_name], of [function_param_default]),
    the match leaves the whole text, the token emitted has the empty
    text and is a [Name_Variable] or a [Whitespace], and the cursor and
    the character before it stay as they were: only the stack changes.
    The three rules are in their tables, and no other rule of the
    tables can match the empty text.  "{a: 1}" has such an empty
    [Name_Variable] token just before the field name, and an empty
    token adds nothing to the concatenation of the texts.  In every
    configuration a scan goes through, the round of a lookahead rule
    does emit that token, and the stack after it is another: the rule
    of [object] pushes [field_name], the rule of [local_name] puts
    [local_value] in the place of [local_name], the rule of
    [function_param_default] pops back to [function_params].  The
    scans of "local x = 1; x" and of "function(a=1) a" show the two
    empty [Whitespace] tokens and the stacks. *)
Theorem lookahead_rules_emit_empty :
  (forall c r rest,
      selected c = Some (r, rest) ->
      (exists s, In (s, r) lookahead_rules) ->
      rest = input c
      /\ (ttype r = Name_Variable \/ ttype r = Whitespace)
      /\ forall t c',
           step c = Emit t c' ->
           t = (ttype r, []) /\ input c' = input c /\ before c' = before c)
  /\ (forall s r,
        In (s, r) lookahead_rules <->
        In r (tokens s) /\ consuming (pattern r) = false)
  /\ tokenize (str "{a: 1}")
     = Done [ (Punctuation, str "{"); (Name_Variable, []);
              (Name_Variable, str "a"); (Punctuation, str ":");
              (Whitespace, str " "); (Number_Float, str "1");
              (Punctuation, str "}") ]
  /\ (forall ty toks, texts ((ty, []) :: toks) = texts toks)
  /\ (forall source c r rest,
        reaches (start source) c ->
        selected c = Some (r, rest) ->
        (exists s, In (s, r) lookahead_rules) ->
        exists c',
          step c = Emit (ttype r, []) c'
          /\ input c' = input c /\ before c' = before c
          /\ apply_action (new_state r) (stk c) = Some (stk c')
          /\ stk c' <> stk c
          /\ ((exists below,
                 stk c = object :: below
                 /\ stk c' = field_name :: object :: below)
              \/ (exists below,
                    stk c = local_name :: below
                    /\ stk c' = local_value :: below)
              \/ (exists below,
                    stk c
                    = function_param_default :: function_params :: below
                    /\ stk c' = function_params :: below)))
  /\ stacks 7 (start (str "{a: 1}"))
     = [ [object; root]; [field_name; object; root];
         [field_separator; field_name; object; root];
         [field_value; object; root]; [field_value; object; root];
         [field_value; object; root]; [root] ]
  /\ tokenize (str "local x = 1; x")
     = Done [ (Keyword, str "local"); (Whitespace, str " ");
              (Name_Variable, str "x"); (Whitespace, str " ");
              (Whitespace, []); (Operator, str "=");
              (Whitespace, str " "); (Number_Float, str "1");
              (Punctuation, str ";"); (Whitespace, str " ");
              (Name_Variable, str "x") ]
  /\ stacks 11 (start (str "local x = 1; x"))
     = [ [local_name; root]; [local_name; root]; [local_name; root];
         [local_name; root]; [local_value; root]; [local_value; root];
         [local_value; root]; [local_value; root]; [root]; [root];
         [root] ]
  /\ tokenize (str "function(a=1) a")
     = Done [ (Keyword, str "function"); (Punctuation, str "(");
              (Name_Variable, str "a"); (Operator, str "=");
              (Number_Float, str "1"); (Whitespace, []);
              (Punctuation, str ")"); (Whitespace, str " ");
              (Name_Variable, str "a") ]
  /\ stacks 9 (start (str "function(a=1) a"))
     = [ [function_params; root]; [function_params; root];
         [function_params; root];
         [function_param_default; function_params; root];
         [function_param_default; function_params; root];
         [function_params; root]; [root]; [root]; [root] ].
Proof.
  split; [|split; [|split; [|split; [|split;
    [|repeat apply conj; vm_compute; reflexivity]]]]].
  - intros c r rest Hsel [s Hin].
    destruct (selected_sound _ _ _ Hsel) as (top & below & Es & _ & Ef & Em).
    assert (rest = input c) as ->.
    { destruct Hin as [[= <- <-] | [[= <- <-] | [[= <- <-] | []]]];
        exact (match_at_ahead _ _ _ _ Em). }
    split; [reflexivity|]. split.
    { destruct Hin as [[= <- <-] | [[= <- <-] | [[= <- <-] | []]]];
        cbn [ttype]; auto. }
    intros t c'. unfold step. rewrite Es, Ef.
    destruct (input c) as [|ch more] eqn:Ei; [discriminate|].
    destruct (apply_action _ _); [|discriminate].
    intros [= <- <-]. cbn [input before]. rewrite span_same.
    repeat apply conj; reflexivity.
  - intros s r. split.
    + intros [[= <- <-] | [[= <- <-] | [[= <- <-] | []]]];
        (split; [cbn; tauto | reflexivity]).
    + intros [Hin Hc]. now apply only_lookahead_rules.
  - vm_compute. reflexivity.
  - reflexivity.
  - intros source c r rest Hr Hsel Hin.
    exact (lookahead_step c r rest (reaches_shape _ _ Hr) Hsel Hin).
Qed.

Lemma lookahead_rules_emit_empty_witness :
  let c := Config [object; root] (Some "{"%char) (str "a: 1}") in
  selected c
  = Some (Rule (Ahead jsonnet_token) Name_Variable (Push field_name),
          str "a: 1}")
  /\ (forall t c',
        step c = Emit t c' ->
        t = (Name_Variable, []) /\ input c' = str "a: 1}"
        /\ before c' = Some "{"%char)
  /\ reaches (start (str "{a: 1}")) c
  /\ exists c',
       step c = Emit (Name_Variable, []) c'
       /\ stk c' <> stk c.
Proof.
  intros c.
  assert (selected c
          = Some (Rule (Ahead jsonnet_token) Name_Variable (Push field_name),
                  str "a: 1}")) as H by (vm_compute; reflexivity).
  assert (exists s,
             In (s, Rule (Ahead jsonnet_token) Name_Variable (Push field_name))
                lookahead_rules) as Hin
    by (exists object; left; reflexivity).
  assert (reaches (start (str "{a: 1}")) c) as Hr.
  { apply (reaches_step _ (start (str "{a: 1}")) (Punctuation, str "{"));
      [apply reaches_start | vm_compute; reflexivity]. }
  split; [exact H|]. split.
  - exact (proj2 (proj2 (proj1 lookahead_rules_emit_empty c _ _ H Hin))).
  - split; [exact Hr|].
    destruct (proj1 (proj2 (proj2 (proj2 (proj2 lookahead_rules_emit_empty))))
                (str "{a: 1}") c _ _ Hr H Hin)
      as (c' & Hs & _ & _ & _ & Hn & _).
    exists c'. split; [exact Hs | exact Hn].
Defined.

(** * Further properties *)

Import RunFacts ScanFacts TableFacts Runs.

(** X1. A scan emits at most two tokens per character of the source:
    only the three lookahead rules emit a token without moving the
    cursor, and none of them fires twice at one place. *)
Theorem token_count_bound (source : text) :
  exists toks,
    tokenize source = Done toks
    /\ List.length toks <= 2 * List.length source.
Proof.
  destruct (tokenize_done source) as [toks E]. exists toks.
  split; [exact E|]. rewrite <- start_measure.
  exact (scan_count _ (start source) toks eq_refl E).
Qed.

(** X2. A token with an empty text is never the last token of a scan
    and is never followed by another empty token: the token right
    after it has some text. *)
Theorem empty_tokens_isolated (source : text) toks l1 ty l2 :
  tokenize source = Done toks -> toks = l1 ++ (ty, []) :: l2 ->
  exists t l3, l2 = t :: l3 /\ snd t <> [].
Proof.
  intros E H.
  exact (scan_empty_isolated _ (start source) toks l1 ty l2 eq_refl E H).
Qed.

Lemma empty_tokens_isolated_witness :
  exists t l3,
    [ (Name_Variable, str "a"); (Punctuation, str ":");
      (Whitespace, str " "); (Number_Float, str "1");
      (Punctuation, str "}") ] = t :: l3
    /\ snd t <> [].
Proof.
  apply (empty_tokens_isolated (str "{a: 1}")
           [ (Punctuation, str "{"); (Name_Variable, []);
             (Name_Variable, str "a"); (Punctuation, str ":");
             (Whitespace, str " "); (Number_Float, str "1");
             (Punctuation, str "}") ]
           [ (Punctuation, str "{") ] Name_Variable).
  - vm_compute. reflexivity.
  - reflexivity.
Defined.

(** X3. The pattern of identifiers matches a letter or an underscore
    and then the longest run of letters, digits and underscores: no
    identifier character is left right after the match. *)
Theorem identifier_longest_match prev s :
  match_at jsonnet_token prev s = token_end s
  /\ match token_end s with
     | Some rest => next_ident rest = false
     | None => True
     end.
Proof.
  split; [apply match_token|]. unfold token_end.
  destruct s as [|c s]; [exact I|].
  destruct (cclass_mem token_start c); [|exact I].
  pose proof (drop_class_head token_chars s) as H.
  now destruct (drop_class token_chars s).
Qed.

(** X4. The pattern of function names matches exactly when the whole
    identifier, taken to its end, is followed at once by an opening
    parenthesis; the match is the identifier and leaves the
    parenthesis. *)
Theorem function_name_needs_parenthesis prev s :
  match_at jsonnet_function_token prev s = function_token_end s
  /\ match function_token_end s with
     | Some rest => token_end s = Some rest /\ hd_error rest = Some "("%char
     | None => True
     end.
Proof.
  split; [apply match_function_token|]. unfold function_token_end.
  destruct (token_end s) as [[|c r]|]; try exact I.
  destruct (Ascii.eqb_spec "(" c) as [<- | _]; [|exact I].
  split; reflexivity.
Qed.

(** X5. The pattern of whitespace matches the longest run of
    whitespace at the cursor, one character at least: what is left
    does not start with whitespace. *)
Theorem whitespace_longest_match prev s :
  match_at (Plus (Cls Space)) prev s = space_end s
  /\ match space_end s with
     | Some (c :: _) => is_space c = false
     | _ => True
     end.
Proof.
  split; [apply match_space|]. unfold space_end.
  destruct s as [|c s]; [exact I|].
  destruct (is_space c); [|exact I].
  pose proof (drop_class_head Space s) as H.
  now destruct (drop_class Space s).
Qed.

Lemma drop_line body rest :
  forallb (cclass_mem Dot) body = true ->
  drop_class Dot (body ++ newline :: rest) = newline :: rest
  /\ drop_class Dot body = [].
Proof.
  induction body as [|c body IH]; intros H.
  - split; reflexivity.
  - cbn [forallb] in H. apply andb_true_iff in H as [Hc H].
    cbn [app drop_class]. rewrite Hc. now apply IH.
Qed.

(** X6. The rule of line comments matches [#] or [//] and everything
    up to the first newline, the newline included; when no newline
    follows, at the end of the text, it does not match at all. *)
Theorem line_comment_to_newline prev body rest :
  forallb (cclass_mem Dot) body = true ->
  (forall s, match_at line_comment prev s = line_comment_end s)
  /\ match_at line_comment prev ("#"%char :: body ++ newline :: rest)
     = Some rest
  /\ match_at line_comment prev (str "//" ++ body ++ newline :: rest)
     = Some rest
  /\ match_at line_comment prev ("#"%char :: body) = None
  /\ match_at line_comment prev (str "//" ++ body) = None
  /\ nth_error comments 0 = Some (rx line_comment Comment_Single).
Proof.
  intros H. destruct (drop_line body rest H) as [D1 D2].
  split; [intros s; apply match_line_comment|].
  rewrite !match_line_comment.
  cbn [line_comment_end str list_ascii_of_string app].
  change (Ascii.eqb "#" "#") with true.
  change (Ascii.eqb "#" "/") with false.
  change (Ascii.eqb "/" "/") with true. cbv iota.
  unfold line_end. rewrite D1, D2. repeat apply conj; reflexivity.
Qed.

Lemma line_comment_to_newline_witness :
  match_at line_comment None (str "# x" ++ newline :: str "y")
  = Some (str "y")
  /\ match_at line_comment None (str "# x") = None.
Proof.
  destruct (line_comment_to_newline None (str " x") (str "y") eq_refl)
    as (_ & H1 & _ & H2 & _).
  split; [exact H1 | exact H2].
Defined.

(** X7. The rule of numbers matches a sign or none, then the longest
    run of digits, one at least, and then, when the next two
    characters are any character but a newline and a digit, those two
    as well. *)
Theorem number_token_extent prev s :
  match_at number prev s = number_end s
  /\ nth_error rvalues 8 = Some (rx number Number_Float).
Proof.
  split; [apply match_number | reflexivity].
Qed.

(** X8. A quoted string whose body has no quote of its kind and no
    backslash is scanned one character at a time: a [String_] token
    for the opening quote, one for each character of the body,
    newlines included, and one for the closing quote, which pops back
    to [root]. *)
Theorem string_one_token_per_character q body :
  q = "'"%char \/ q = dq ->
  Forall (fun c => c <> q /\ c <> backslash) body ->
  tokenize (q :: body ++ [q])
  = Done ((String_, [q]) :: each String_ body ++ [(String_, [q])])
  /\ (exists p,
        emits (start (q :: body))
              ((String_, [q]) :: each String_ body)
              (Config [string_state q; root] p []))
  /\ emits (start (q :: body ++ [q]))
           ((String_, [q]) :: each String_ body ++ [(String_, [q])])
           (Config [root] (Some q) [])
  /\ (forall b below prev rest,
        step (Config (string_state q :: b :: below) prev (q :: rest))
        = Emit (String_, [q]) (Config (b :: below) (Some q) rest)).
Proof.
  intros Hq Hb.
  assert (emits (start (q :: body ++ [q]))
                ((String_, [q]) :: each String_ body ++ [(String_, [q])])
                (Config [root] (Some q) [])) as Hall.
  { apply (emits_more _ _ _ _ _ (open_quote_step q [] None _ Hq)).
    destruct (emits_string_body q [root] body (Some q) [q] Hq Hb) as [p H].
    apply (emits_app _ _ _ _ _ H). apply emits_one.
    now apply string_close_step. }
  split; [|split; [|split]].
  - exact (emits_tokenize _ _ _ Hall eq_refl).
  - destruct (emits_string_body q [root] body (Some q) [] Hq Hb) as [p H].
    exists p. rewrite app_nil_r in H.
    apply (emits_more _ _ _ _ _ (open_quote_step q [] None _ Hq)). exact H.
  - exact Hall.
  - intros b below prev rest. now apply string_close_step.
Qed.

Lemma string_one_token_per_character_witness :
  tokenize (str "'a b'")
  = Done [ (String_, str "'"); (String_, str "a"); (String_, str " ");
           (String_, str "b"); (String_, str "'") ].
Proof.
  refine (proj1 (string_one_token_per_character "'"%char (str "a b")
                   (or_introl eq_refl) _)).
  repeat constructor; discriminate.
Defined.

(** X9. In a string a backslash and the character after it are one
    [String_Escape] token, whatever that character is but a newline,
    and the state stays: an escaped quote does not close the string.
    A backslash before a newline, or at the end of the text, matches
    no rule and is an [Error] token. *)
Theorem string_escape_pairs q below prev c rest :
  q = "'"%char \/ q = dq -> c <> newline ->
  let st := string_state q :: below in
  step (Config st prev (backslash :: c :: rest))
  = Emit (String_Escape, [backslash; c]) (Config st (Some c) rest)
  /\ step (Config st prev (backslash :: newline :: rest))
     = Emit (Error, [backslash]) (Config st (Some backslash) (newline :: rest))
  /\ step (Config st prev [backslash])
     = Emit (Error, [backslash]) (Config st (Some backslash) []).
Proof.
  intros Hq Hc st. pose proof (quote_not_backslash _ Hq) as Nq.
  split; [|split].
  - apply (step_word _ _ _ [backslash; c] rest
             (rx (Seq (Cls (OneOf [One backslash])) (Cls Dot)) String_Escape));
      [discriminate| |reflexivity].
    rewrite (tokens_string _ Hq), string_rules_match by exact Nq.
    cbn [app]. rewrite Nq, Ascii.eqb_refl. cbn [cclass_mem].
    apply Ascii.eqb_neq in Hc. unfold newline in Hc. now rewrite Hc.
  - apply step_error.
    rewrite (tokens_string _ Hq), string_rules_match by exact Nq.
    now rewrite Nq, Ascii.eqb_refl.
  - apply step_error.
    rewrite (tokens_string _ Hq), string_rules_match by exact Nq.
    now rewrite Nq, Ascii.eqb_refl.
Qed.

Lemma string_escape_pairs_witness :
  step (Config [singlestring; root] (Some "a"%char) (str "\'b'"))
  = Emit (String_Escape, str "\'")
         (Config [singlestring; root] (Some "'"%char) (str "b'")).
Proof.
  refine (proj1 (string_escape_pairs "'"%char [root] (Some "a"%char)
                   "'"%char (str "b'") (or_introl eq_refl) _)).
  discriminate.
Defined.

(** X10. Brackets nest to any depth: [n] opening brackets push [n]
    entries [array] on the stack, and [n] closing brackets after them
    pop them all, every bracket a [Punctuation] token, back to
    [root]. *)
Theorem nested_arrays_balance (n : nat) :
  tokenize (repeat "["%char n ++ repeat "]"%char n)
  = Done (each Punctuation (repeat "["%char n ++ repeat "]"%char n))
  /\ (exists p,
        emits (start (repeat "["%char n))
              (each Punctuation (repeat "["%char n))
              (Config (repeat array n ++ [root]) p []))
  /\ (exists p,
        emits (start (repeat "["%char n ++ repeat "]"%char n))
              (each Punctuation (repeat "["%char n ++ repeat "]"%char n))
              (Config [root] p []))
  /\ (forall b below prev rest,
        exists p,
          emits (Config (repeat array n ++ b :: below) prev
                        (repeat "]"%char n ++ rest))
                (each Punctuation (repeat "]"%char n))
                (Config (b :: below) p rest)).
Proof.
  assert (exists p,
             emits (start (repeat "["%char n ++ repeat "]"%char n))
                   (each Punctuation (repeat "["%char n ++ repeat "]"%char n))
                   (Config [root] p [])) as [p' Hall].
  { destruct (emits_opens n root [] None (repeat "]"%char n)
                (or_introl eq_refl)) as [p H].
    destruct (emits_closes n root [] p []) as [p' H'].
    rewrite app_nil_r in H'. exists p'.
    unfold each. rewrite map_app. exact (emits_app _ _ _ _ _ H H'). }
  split; [|split; [|split]].
  - exact (emits_tokenize _ _ _ Hall eq_refl).
  - destruct (emits_opens n root [] None [] (or_introl eq_refl)) as [p H].
    exists p. now rewrite app_nil_r in H.
  - now exists p'.
  - intros b below prev rest. apply emits_closes.
Qed.

(** X11. At [root] a character that is not an identifier character,
    not whitespace, not a quote and not one of the signs of
    [root_start] starts no rule: it is an [Error] token of its own and
    the stack stays as it is.  Closing brackets and braces, commas,
    semicolons, colons and every letter outside A-Z and a-z are
    such. *)
Theorem root_unknown_characters c below prev rest :
  root_start c = false ->
  first_match (tokens root) prev (c :: rest) = None
  /\ step (Config (root :: below) prev (c :: rest))
     = Emit (Error, [c]) (Config (root :: below) (Some c) rest).
Proof.
  intros H. pose proof (root_no_rule c prev rest H) as F.
  split; [exact F | now apply step_error].
Qed.

Lemma root_unknown_characters_witness :
  step (Config [root] None (str "}x"))
  = Emit (Error, str "}") (Config [root] (Some "}"%char) (str "x")).
Proof.
  exact (proj2 (root_unknown_characters "}"%char [] None (str "x") eq_refl)).
Defined.

Lemma separator_not_space s rest :
  separator_end s = Some rest -> s <> [] /\ space_end s = None.
Proof.
  destruct s as [|c s]; [discriminate|]. intros H.
  split; [discriminate|]. unfold space_end.
  cbn [separator_end] in H.
  destruct (Ascii.eqb_spec "+" c) as [<- | _]; [reflexivity|].
  cbn [colons_end] in H.
  destruct (Ascii.eqb_spec ":" c) as [<- | _]; [reflexivity | discriminate].
Qed.

(** X12. The rule of field separators matches a plus sign or none,
    then one colon and up to two more, as many as are there: [:],
    [::], [:::], [+:], [+::], [+:::].  In [field_separator] the match
    is one [Punctuation] token that pops two entries of the stack and
    pushes [field_value] in their place. *)
Theorem separator_forms prev s a b below rest :
  separator_end s = Some rest ->
  (forall s', match_at separator prev s' = separator_end s')
  /\ nth_error (tokens field_separator) 1
     = Some (Rule separator Punctuation (Tuple [pop; pop; enter field_value]))
  /\ step (Config (field_separator :: a :: b :: below) prev s)
     = Emit (Punctuation, span s rest)
            (Config (field_value :: b :: below)
                    (last_char prev (span s rest)) rest).
Proof.
  intros H. split; [intros s'; apply match_separator|].
  split; [reflexivity|].
  destruct (separator_not_space _ _ H) as [Hs Hsp].
  destruct s as [|ch more]; [contradiction|].
  apply (step_selected (Config (field_separator :: a :: b :: below) prev
                               (ch :: more))
           ch more field_separator (a :: b :: below)
           (Rule separator Punctuation (Tuple [pop; pop; enter field_value]))
           rest (field_value :: b :: below));
    try reflexivity.
  cbn [input before tokens app first_match rx pattern].
  rewrite match_space, Hsp.
  change (Seq (Opt (Lit "+"))
              (Seq (Lit ":") (Seq (Opt (Lit ":")) (Opt (Lit ":")))))
    with separator.
  now rewrite match_separator, H.
Qed.

Lemma separator_forms_witness :
  step (Config [field_separator; field_name; object; root] (Some "a"%char)
               (str "+:: 1"))
  = Emit (Punctuation, str "+::")
         (Config [field_value; object; root] (Some ":"%char) (str " 1")).
Proof.
  exact (proj2 (proj2 (separator_forms (Some "a"%char) (str "+:: 1")
                         field_name object [root] (str " 1") eq_refl))).
Defined.

Lemma listed_nonempty w : In w keyword_list -> str w <> [].
Proof.
  unfold keyword_list. cbn [In].
  intros H; repeat (destruct H as [<- | H]; [discriminate|]); destruct H.
Qed.

(** X13. At [root] each listed word other than [assert], followed by
    the end of the text or by a character that is not an identifier
    character, is one [Keyword] token, and the stack stays as it
    is. *)
Theorem listed_words_are_keywords w below prev rest :
  In w keyword_list -> w <> "assert"%string -> next_ident rest = false ->
  step (Config (root :: below) prev (str w ++ rest))
  = Emit (Keyword, str w)
         (Config (root :: below) (last_char prev (str w)) rest).
Proof.
  intros Hin Hw H.
  apply (step_word root below prev (str w) rest
           (rx (Seq keywords (NotAhead jsonnet_token_chars)) Keyword));
    [now apply listed_nonempty | now apply listed_selected | reflexivity].
Qed.

Lemma listed_words_are_keywords_witness :
  step (Config [root] None (str "importstr 'x'"))
  = Emit (Keyword, str "importstr")
         (Config [root] (Some "r"%char) (str " 'x'")).
Proof.
  refine (listed_words_are_keywords "importstr" [] None (str " 'x'") _ _ _).
  - simpl. tauto.
  - discriminate.
  - reflexivity.
Defined.

(** ** Repetitions that give characters back *)

Module GreedyFacts.
Import Re Jsonnet Engine Shape Spec Runs.
Import ReFacts ShapeFacts EngineFacts KeywordFacts RunFacts ScanFacts TableFacts.

Lemma star_loop_unfold {R} body (K : cont R) n prev s :
  star_loop body K (S n) prev s
  = match body (fun prev' s' =>
                  if List.length s' <? List.length s
                  then star_loop body K n prev' s'
                  else None) prev s with
    | Some x => Some x
    | None => K prev s
    end.
Proof. reflexivity. Qed.

Section Back.
Context {R : Type} (cs : cclass) (K : cont R).

Lemma star_class_none n : forall s prev,
  fails_along cs K s -> star_loop (run (Cls cs)) K n prev s = None.
Proof.
  induction n as [|n IH]; intros s prev H.
  - exact (H [] s prev eq_refl eq_refl).
  - destruct s as [|c s].
    + rewrite star_class_stop by exact I. exact (H [] [] prev eq_refl eq_refl).
    + destruct (cclass_mem cs c) eqn:E.
      * rewrite star_class_unfold by exact E. rewrite IH.
        -- exact (H [] (c :: s) prev eq_refl eq_refl).
        -- intros pre t p -> Hp. apply (H (c :: pre) t p eq_refl).
           cbn [forallb]. now rewrite E, Hp.
      * rewrite (star_class_stop cs K (S n) prev (c :: s) E).
        exact (H [] (c :: s) prev eq_refl eq_refl).
Qed.

(** The repetition stops at the last place where what follows
    matches. *)
Lemma star_class_last c s x : forall body n prev,
  forallb (cclass_mem cs) body = true ->
  cclass_mem cs c = true -> fails_along cs K s ->
  (forall p, K p (c :: s) = Some x) ->
  List.length (body ++ c :: s) <= n ->
  star_loop (run (Cls cs)) K n prev (body ++ c :: s) = Some x.
Proof.
  induction body as [|b body IH]; intros n prev Hb Hc Hs HK L.
  - destruct n as [|n]; [simpl in L; lia|]. cbn [app].
    rewrite star_class_unfold by exact Hc.
    rewrite star_class_none by exact Hs. apply HK.
  - destruct n as [|n]; [simpl in L; lia|]. cbn [app].
    cbn [forallb] in Hb. apply andb_true_iff in Hb as [Hb1 Hb2].
    rewrite star_class_unfold by exact Hb1.
    rewrite IH; [reflexivity | assumption.. | simpl in L; lia].
Qed.

End Back.

Lemma take_class_app cs pre t :
  forallb (cclass_mem cs) pre = true ->
  take_class cs (pre ++ t) = pre ++ take_class cs t.
Proof.
  induction pre as [|c pre IH]; intros H; [reflexivity|].
  cbn [forallb] in H. apply andb_true_iff in H as [Hc H].
  cbn [app take_class]. now rewrite Hc, IH.
Qed.

Lemma run_quote q p t :
  run (Lit (String q EmptyString)) (fun _ s' => Some s') p t
  = match t with
    | c :: t' => if Ascii.eqb q c then Some t' else None
    | [] => None
    end.
Proof.
  rewrite run_lit_eq. cbn [str list_ascii_of_string strip].
  destruct t as [|c t']; [reflexivity|]. now destruct (Ascii.eqb q c).
Qed.

Lemma quote_fails_along q rest :
  cclass_mem Dot q = true ->
  forallb (fun c => negb (Ascii.eqb q c)) (take_class Dot rest) = true ->
  fails_along Dot (run (Lit (String q EmptyString)) (fun _ s' => Some s')) rest.
Proof.
  intros Hq H pre t p -> Hp. rewrite run_quote.
  destruct t as [|c t']; [reflexivity|].
  destruct (Ascii.eqb_spec q c) as [<- | _]; [|reflexivity].
  rewrite (take_class_app _ _ _ Hp) in H. rewrite forallb_app in H.
  apply andb_true_iff in H as [_ H]. cbn [take_class] in H.
  rewrite Hq in H. cbn [forallb] in H. now rewrite Ascii.eqb_refl in H.
Qed.

Lemma match_verbatim q prev body rest :
  cclass_mem Dot q = true ->
  forallb (cclass_mem Dot) body = true ->
  forallb (fun c => negb (Ascii.eqb q c)) (take_class Dot rest) = true ->
  match_at (verbatim q) prev ("@"%char :: q :: body ++ q :: rest) = Some rest.
Proof.
  intros Hq Hb Hr. unfold match_at, verbatim.
  rewrite run_seq, run_lit_eq. cbn [str list_ascii_of_string strip].
  change (Ascii.eqb "@" "@") with true. rewrite Ascii.eqb_refl. cbv iota.
  rewrite run_seq, run_star.
  apply star_class_last; try assumption; [|intros p| lia].
  - now apply quote_fails_along.
  - rewrite run_quote. now rewrite Ascii.eqb_refl.
Qed.

Lemma occurs_none d : forall pre s t,
  occurs d s = false -> s = pre ++ t -> strip d t = None.
Proof.
  induction pre as [|c pre IH]; intros s t H E; subst s.
  - destruct t; cbn [occurs app] in H; apply orb_false_iff in H as [H _];
      now destruct (strip d _).
  - cbn [app occurs] in H. apply orb_false_iff in H as [_ H].
    exact (IH _ t H eq_refl).
Qed.

Lemma forallb_dotall s : forallb (cclass_mem DotAll) s = true.
Proof. induction s as [|c s IH]; [reflexivity | exact IH]. Qed.

Lemma match_block prev body rest :
  occurs (str "|||") (str "||" ++ rest) = false ->
  match_at block prev (str "|||" ++ body ++ str "|||" ++ rest) = Some rest.
Proof.
  intros H. unfold match_at, block.
  rewrite run_seq, run_lit_eq.
  change (str "|||" ++ body ++ str "|||" ++ rest)
    with (str "|||" ++ (body ++ "|"%char :: (str "||" ++ rest))).
  rewrite strip_app_eq, run_seq, run_star.
  apply star_class_last; [apply forallb_dotall | reflexivity | | | lia].
  - intros pre t p E _. rewrite run_lit_eq.
    now rewrite (occurs_none _ _ _ _ H E).
  - intros p. rewrite run_lit_eq.
    change ("|"%char :: str "||" ++ rest) with (str "|||" ++ rest).
    now rewrite strip_app_eq.
Qed.

(** The pieces of a quoted name, then its closing quote. *)
Lemma star_pieces q rest pieces : forall n prev,
  Ascii.eqb backslash q = false ->
  forallb (is_piece q) pieces = true ->
  List.length (List.concat pieces ++ q :: rest) <= n ->
  star_loop
    (run (Alt (Cls (NoneOf [One q; One backslash]))
              (Seq (Cls (OneOf [One backslash])) (Cls Dot))))
    (run (Cls (OneOf [One q])) (fun _ s' => Some s')) n prev
    (List.concat pieces ++ q :: rest)
  = Some rest.
Proof.
  induction pieces as [|pc pieces IH]; intros n prev Hq Hp L;
    (destruct n as [|n]; [rewrite length_app in L; simpl in L; lia|]);
    rewrite star_loop_unfold, run_alt, run_seq, !run_cls;
    cbn [List.concat app cclass_mem existsb citem_mem].
  - rewrite !orb_false_r, Ascii.eqb_refl, (Ascii.eqb_sym q backslash), Hq.
    reflexivity.
  - cbn [forallb] in Hp. apply andb_true_iff in Hp as [Hpc Hp].
    destruct pc as [|c [|d [|e pc]]]; try discriminate Hpc;
      cbn [is_piece] in Hpc; apply andb_true_iff in Hpc as [H1 H2];
      cbn [app] in *; rewrite !orb_false_r.
    + apply negb_true_iff in H1, H2. rewrite H1, H2. cbn [orb negb].
      assert ((List.length (List.concat pieces ++ q :: rest)
               <? List.length (c :: List.concat pieces ++ q :: rest)) = true)
        as -> by (apply Nat.ltb_lt; simpl; lia).
      rewrite IH; [reflexivity | assumption.. | simpl in L; lia].
    + apply Ascii.eqb_eq in H1. subst c.
      rewrite Hq, Ascii.eqb_refl. cbn [orb negb].
      rewrite run_cls, H2.
      assert ((List.length (List.concat pieces ++ q :: rest)
               <? List.length
                    (backslash :: d :: List.concat pieces ++ q :: rest)) = true)
        as -> by (apply Nat.ltb_lt; simpl; lia).
      rewrite IH; [reflexivity | assumption.. | simpl in L; lia].
Qed.

Lemma match_quoted q prev pieces rest :
  Ascii.eqb backslash q = false ->
  forallb (is_piece q) pieces = true ->
  match_at (quoted q) prev (List.concat pieces ++ q :: rest) = Some rest.
Proof.
  intros Hq Hp. unfold match_at, quoted. rewrite run_seq, run_star.
  now apply star_pieces.
Qed.

Lemma tokens_field q :
  q = "'"%char \/ q = dq -> tokens (field_state q) = quoted_field_name q.
Proof. intros [-> | ->]; reflexivity. Qed.

End GreedyFacts.

Import GreedyFacts.

Lemma first_match_nth rules : forall n r prev s rest,
  nth_error rules n = Some r ->
  first_match (firstn n rules) prev s = None ->
  match_at (pattern r) prev s = Some rest ->
  first_match rules prev s = Some (r, rest).
Proof.
  induction rules as [|r0 rules IH]; intros [|n] r prev s rest; simpl;
    try discriminate.
  - intros [= ->] _ H. now rewrite H.
  - intros Hn. destruct (match_at (pattern r0) prev s); [discriminate|].
    now apply IH.
Qed.

Lemma last_char_end prev l q : last_char prev (l ++ [q]) = Some q.
Proof. unfold last_char. now rewrite rev_app_distr. Qed.

(** X14. The one rule of a quoted field name matches everything up
    to the first closing quote that no backslash escapes, that quote
    included, as one [Name_Variable] token that pushes
    [field_separator]; a backslash takes the character after it
    along. *)
Theorem quoted_field_name_extent q below prev pieces rest :
  q = "'"%char \/ q = dq ->
  forallb (is_piece q) pieces = true ->
  match_at (quoted q) prev (List.concat pieces ++ q :: rest) = Some rest
  /\ quoted_field_name q
     = [Rule (quoted q) Name_Variable (Push field_separator)]
  /\ step (Config (field_state q :: below) prev
                  (List.concat pieces ++ q :: rest))
     = Emit (Name_Variable, List.concat pieces ++ [q])
            (Config (field_separator :: field_state q :: below)
                    (Some q) rest).
Proof.
  intros Hq Hp. pose proof (quote_not_backslash _ Hq) as Nq.
  pose proof (match_quoted q prev pieces rest Nq Hp) as M.
  split; [exact M|]. split; [reflexivity|].
  replace (List.concat pieces ++ q :: rest)
    with ((List.concat pieces ++ [q]) ++ rest) in *
    by now rewrite <- app_assoc.
  rewrite (step_word _ _ _ _ rest
             (Rule (quoted q) Name_Variable (Push field_separator))
             (field_separator :: field_state q :: below)).
  - now rewrite last_char_end.
  - intros E. apply app_eq_nil in E as [_ E]. discriminate E.
  - rewrite (tokens_field _ Hq). unfold quoted_field_name.
    cbn [first_match pattern]. fold (quoted q). now rewrite M.
  - reflexivity.
Qed.

Lemma quoted_field_name_extent_witness :
  step (Config [double_field_name; object; root] (Some dq)
               (str "a\" ++ [dq] ++ str "b" ++ [dq] ++ str ": 1"))
  = Emit (Name_Variable, str "a\" ++ [dq] ++ str "b" ++ [dq])
         (Config [field_separator; double_field_name; object; root]
                 (Some dq) (str ": 1")).
Proof.
  exact (proj2 (proj2 (quoted_field_name_extent dq [object; root] (Some dq)
                         [str "a"; [backslash; dq]; str "b"] (str ": 1")
                         (or_intror eq_refl) eq_refl))).
Defined.

Lemma quote_is_dot q : q = "'"%char \/ q = dq -> cclass_mem Dot q = true.
Proof. intros [-> | ->]; reflexivity. Qed.

(** X15. A verbatim string, [@] and a quote, runs to the last quote
    of that kind on its line, not to the first: quotes inside it do
    not close it.  At [root] the whole of it is one [String_]
    token. *)
Theorem verbatim_to_last_quote q below prev body rest :
  q = "'"%char \/ q = dq ->
  forallb (cclass_mem Dot) body = true ->
  forallb (fun c => negb (Ascii.eqb q c)) (take_class Dot rest) = true ->
  match_at (verbatim q) prev ("@"%char :: q :: body ++ q :: rest) = Some rest
  /\ nth_error rvalues 3 = Some (rx (verbatim "'") String_)
  /\ nth_error rvalues 4 = Some (rx (verbatim dq) String_)
  /\ step (Config (root :: below) prev ("@"%char :: q :: body ++ q :: rest))
     = Emit (String_, "@"%char :: q :: body ++ [q])
            (Config (root :: below) (Some q) rest).
Proof.
  intros Hq Hb Hr.
  pose proof (match_verbatim q prev body rest (quote_is_dot _ Hq) Hb Hr) as M.
  split; [exact M|]. split; [reflexivity|]. split; [reflexivity|].
  replace ("@"%char :: q :: body ++ q :: rest)
    with (("@"%char :: q :: body ++ [q]) ++ rest) in *
    by (cbn [app]; now rewrite <- app_assoc).
  rewrite (step_word _ _ _ _ rest (rx (verbatim q) String_) (root :: below)).
  - change ("@"%char :: q :: body ++ [q])
      with (("@"%char :: q :: body) ++ [q]).
    now rewrite last_char_end.
  - discriminate.
  - destruct Hq as [-> | ->].
    + apply (first_match_nth _ 3); [reflexivity | | exact M].
      vm_compute. reflexivity.
    + apply (first_match_nth _ 4); [reflexivity | | exact M].
      vm_compute. reflexivity.
  - reflexivity.
Qed.

Lemma verbatim_to_last_quote_witness :
  step (start (str "@'a' + @'b'; c"))
  = Emit (String_, str "@'a' + @'b'")
         (Config [root] (Some "'"%char) (str "; c")).
Proof.
  exact (proj2 (proj2 (proj2
           (verbatim_to_last_quote "'"%char [] None (str "a' + @'b")
              (str "; c") (or_introl eq_refl) eq_refl eq_refl)))).
Defined.

(** X16. A text block runs from its opening [|||] to the last [|||]
    of the whole text, newlines and other [|||] inside it included; at
    [root] it is one [String_] token. *)
Theorem block_to_last_delimiter below prev body rest :
  occurs (str "|||") (str "||" ++ rest) = false ->
  match_at block prev (str "|||" ++ body ++ str "|||" ++ rest) = Some rest
  /\ nth_error rvalues 7 = Some (rx block String_)
  /\ step (Config (root :: below) prev
                  (str "|||" ++ body ++ str "|||" ++ rest))
     = Emit (String_, str "|||" ++ body ++ str "|||")
            (Config (root :: below) (Some "|"%char) rest).
Proof.
  intros H. pose proof (match_block prev body rest H) as M.
  split; [exact M|]. split; [reflexivity|].
  replace (str "|||" ++ body ++ str "|||" ++ rest)
    with ((str "|||" ++ body ++ str "|||") ++ rest) in *
    by now rewrite <- !app_assoc.
  rewrite (step_word _ _ _ _ rest (rx block String_) (root :: below)).
  - change (str "|||" ++ body ++ str "|||")
      with (str "|||" ++ body ++ str "||" ++ ["|"%char]).
    now rewrite !app_assoc, last_char_end.
  - discriminate.
  - apply (first_match_nth _ 7); [reflexivity | | exact M].
    vm_compute. reflexivity.
  - reflexivity.
Qed.

Lemma block_to_last_delimiter_witness :
  step (start (str "|||a||| + |||b||| c"))
  = Emit (String_, str "|||a||| + |||b|||")
         (Config [root] (Some "|"%char) (str " c")).
Proof.
  exact (proj2 (proj2
           (block_to_last_delimiter [] None (str "a||| + |||b") (str " c")
              eq_refl))).
Defined.

(** ** Block comments *)

Module CommentFacts.
Import Re Jsonnet Engine Shape Spec Runs.
Import ReFacts ShapeFacts EngineFacts KeywordFacts RunFacts ScanFacts.
Import TableFacts GreedyFacts.

Lemma star_none {R} body b (K : cont R) n prev s :
  through body b ->
  (forall p t, after s t false -> K p t = None) ->
  star_loop body K n prev s = None.
Proof.
  intros Hb HK. destruct (star_loop body K n prev s) as [x|] eqn:E;
    [|reflexivity].
  apply (star_loop_through _ _ n Hb) in E as (p' & s' & E & A).
  now rewrite (HK p' s' A) in E.
Qed.

Lemma run_not_ahead_lit {R} l (k : cont R) p s :
  run (NotAhead (Lit l)) k p s
  = if is_some (strip (str l) s) then None else k p s.
Proof. cbn [run]. now destruct (strip (str l) s). Qed.

Lemma close_none {R} (k : cont R) s p t :
  occurs (str "*/") s = false -> after s t false ->
  run (Lit "*/") k p t = None.
Proof.
  intros H [[pre E] _]. rewrite run_lit_eq.
  now rewrite (occurs_none _ _ _ _ H E).
Qed.

Lemma comment_tail_none n prev s :
  occurs (str "*/") s = false ->
  star_loop (run comment_step) (run (Lit "*/") (fun _ s' => Some s')) n prev s
  = None.
Proof.
  intros H. apply (star_none _ _ _ _ _ _ (run_through comment_step)).
  intros p t A. now apply (close_none _ s).
Qed.

Lemma shorter (c : ascii) (s : text) :
  (List.length s <? List.length (c :: s)) = true.
Proof. apply Nat.ltb_lt. simpl. lia. Qed.

(** The body of a comment with no [/*] in it, then the closing [*/]
    with no other [*/] after it. *)
Lemma comment_star rest body : forall n prev,
  occurs (str "/*") (body ++ str "*/") = false ->
  occurs (str "*/") ("/"%char :: rest) = false ->
  List.length (body ++ str "*/" ++ rest) <= n ->
  star_loop (run comment_step) (run (Lit "*/") (fun _ s' => Some s')) n prev
            (body ++ str "*/" ++ rest)
  = Some rest.
Proof.
  induction body as [|c body IH]; intros n prev Ho Hc L;
    (destruct n as [|n]; [rewrite length_app in L; simpl in L; lia|]);
    rewrite star_loop_unfold; unfold comment_step at 1;
    rewrite run_alt, run_cls.
  - cbn [app str list_ascii_of_string cclass_mem existsb citem_mem].
    change (Ascii.eqb "*" "/") with false. cbn [orb negb].
    rewrite shorter, comment_tail_none by exact Hc.
    rewrite run_seq, !run_lit_eq. cbn [str list_ascii_of_string strip].
    change (Ascii.eqb "/" "*") with false.
    change (Ascii.eqb "*" "*") with true.
    change (Ascii.eqb "/" "/") with true. reflexivity.
  - cbn [app occurs] in Ho. apply orb_false_iff in Ho as [Hs Ho].
    cbn [app cclass_mem existsb citem_mem]. rewrite orb_false_r.
    destruct (Ascii.eqb_spec c "/") as [-> | Nc]; cbn [negb].
    + rewrite run_seq, run_lit_eq.
      change (strip (str "/") ("/"%char :: body ++ str "*/" ++ rest))
        with (Some (body ++ str "*/" ++ rest)).
      cbv iota. rewrite run_not_ahead_lit.
      assert (strip (str "*") (body ++ str "*/" ++ rest) = None) as ->.
      { destruct body as [|c2 body].
        - discriminate Hs.
        - cbn [app str list_ascii_of_string strip] in *.
          change (Ascii.eqb "/" "/") with true in Hs. cbv iota in Hs.
          now destruct (Ascii.eqb "*" c2). }
      cbn [is_some]. rewrite shorter.
      rewrite IH; [reflexivity | assumption.. | cbn [app List.length] in L; lia].
    + rewrite shorter.
      rewrite IH; [reflexivity | assumption.. | cbn [app List.length] in L; lia].
Qed.

Lemma match_comment_rest prev body rest :
  occurs (str "/*") (body ++ str "*/") = false ->
  occurs (str "*/") ("/"%char :: rest) = false ->
  run (Seq comment_body (Lit "*/")) (fun _ s' => Some s') prev
      (body ++ str "*/" ++ rest)
  = Some rest.
Proof.
  intros Ho Hc. unfold comment_body. fold comment_step.
  rewrite run_seq, run_star. now apply comment_star.
Qed.

Lemma match_doc_comment prev body rest :
  occurs (str "/*") (body ++ str "*/") = false ->
  occurs (str "*/") ("/"%char :: rest) = false ->
  match_at doc_comment prev (str "/**" ++ body ++ str "*/" ++ rest)
  = Some rest.
Proof.
  intros Ho Hc. unfold match_at, doc_comment.
  rewrite run_seq, run_lit_eq, strip_app_eq.
  now apply match_comment_rest.
Qed.

Lemma match_plain_comment prev body rest :
  occurs (str "/*") (body ++ str "*/") = false ->
  occurs (str "*/") ("/"%char :: rest) = false ->
  match_at plain_comment prev (str "/*" ++ body ++ str "*/" ++ rest)
  = Some rest.
Proof.
  intros Ho Hc. unfold match_at, plain_comment.
  rewrite run_seq, run_lit_eq, strip_app_eq.
  now apply match_comment_rest.
Qed.

(** The rule of documentation comments does not match a comment whose
    body does not start with a star. *)
Lemma doc_not_plain prev body rest :
  hd_error body <> Some "*"%char ->
  occurs (str "*/") ("/"%char :: rest) = false ->
  match_at doc_comment prev (str "/*" ++ body ++ str "*/" ++ rest) = None.
Proof.
  intros Hb Hc. unfold match_at, doc_comment.
  rewrite run_seq, run_lit_eq.
  destruct body as [|c body]; cbn [app str list_ascii_of_string strip].
  - change (Ascii.eqb "/" "/") with true.
    change (Ascii.eqb "*" "*") with true. cbv iota.
    unfold comment_body. fold comment_step.
    rewrite run_seq, run_star. now apply comment_tail_none.
  - change (Ascii.eqb "/" "/") with true.
    change (Ascii.eqb "*" "*") with true. cbv iota.
    destruct (Ascii.eqb_spec "*" c) as [<- | _]; [|reflexivity].
    now contradiction Hb.
Qed.

End CommentFacts.

Import CommentFacts.

(** X17. A documentation comment, [/**] to [*/], is one [String_Doc]
    token at [root] when no [/*] occurs between the two and no other
    [*/] follows: a slash inside it is read on unless a star follows
    it. *)
Theorem doc_comment_extent below prev body rest :
  occurs (str "/*") (body ++ str "*/") = false ->
  occurs (str "*/") ("/"%char :: rest) = false ->
  match_at doc_comment prev (str "/**" ++ body ++ str "*/" ++ rest)
  = Some rest
  /\ nth_error comments 1 = Some (rx doc_comment String_Doc)
  /\ step (Config (root :: below) prev
                  (str "/**" ++ body ++ str "*/" ++ rest))
     = Emit (String_Doc, str "/**" ++ body ++ str "*/")
            (Config (root :: below) (Some "/"%char) rest).
Proof.
  intros Ho Hc. pose proof (match_doc_comment prev body rest Ho Hc) as M.
  split; [exact M|]. split; [reflexivity|].
  replace (str "/**" ++ body ++ str "*/" ++ rest)
    with ((str "/**" ++ body ++ str "*/") ++ rest) in *
    by now rewrite <- !app_assoc.
  rewrite (step_word _ _ _ _ rest (rx doc_comment String_Doc) (root :: below)).
  - replace (str "/**" ++ body ++ str "*/")
      with ((str "/**" ++ body ++ ["*"%char]) ++ ["/"%char])
      by now rewrite <- !app_assoc.
    now rewrite last_char_end.
  - discriminate.
  - apply (first_match_nth _ 1); [reflexivity | | exact M].
    vm_compute. reflexivity.
  - reflexivity.
Qed.

Lemma doc_comment_extent_witness :
  step (start (str "/** a / b */ c"))
  = Emit (String_Doc, str "/** a / b */")
         (Config [root] (Some "/"%char) (str " c")).
Proof.
  exact (proj2 (proj2 (doc_comment_extent [] None (str " a / b ") (str " c")
                         eq_refl eq_refl))).
Defined.

(** X18. A block comment, [/*] to [*/], whose body does not start
    with a star is one [Comment] token at [root] under the same
    conditions: the rule of documentation comments, tried first, does
    not match it.  A [*/] inside the body does not close it when
    another [*/] follows with no [/*] in between. *)
Theorem plain_comment_extent below prev body rest :
  hd_error body <> Some "*"%char ->
  occurs (str "/*") (body ++ str "*/") = false ->
  occurs (str "*/") ("/"%char :: rest) = false ->
  match_at plain_comment prev (str "/*" ++ body ++ str "*/" ++ rest)
  = Some rest
  /\ nth_error comments 2 = Some (rx plain_comment Comment)
  /\ step (Config (root :: below) prev
                  (str "/*" ++ body ++ str "*/" ++ rest))
     = Emit (Comment, str "/*" ++ body ++ str "*/")
            (Config (root :: below) (Some "/"%char) rest).
Proof.
  intros Hb Ho Hc. pose proof (match_plain_comment prev body rest Ho Hc) as M.
  pose proof (doc_not_plain prev body rest Hb Hc) as D.
  split; [exact M|]. split; [reflexivity|].
  replace (str "/*" ++ body ++ str "*/" ++ rest)
    with ((str "/*" ++ body ++ str "*/") ++ rest) in *
    by now rewrite <- !app_assoc.
  rewrite (step_word _ _ _ _ rest (rx plain_comment Comment) (root :: below)).
  - replace (str "/*" ++ body ++ str "*/")
      with ((str "/*" ++ body ++ ["*"%char]) ++ ["/"%char])
      by now rewrite <- !app_assoc.
    now rewrite last_char_end.
  - discriminate.
  - apply (first_match_nth _ 2); [reflexivity | | exact M].
    change (firstn 2 (tokens root))
      with [rx line_comment Comment_Single; rx doc_comment String_Doc].
    cbn [first_match pattern rx]. rewrite D.
    now rewrite match_line_comment.
  - reflexivity.
Qed.

Lemma plain_comment_extent_witness :
  step (start (str "/* a */ b */ c"))
  = Emit (Comment, str "/* a */ b */")
         (Config [root] (Some "/"%char) (str " c")).
Proof.
  refine (proj2 (proj2 (plain_comment_extent [] None (str " a */ b ")
                          (str " c") _ eq_refl eq_refl))).
  discriminate.
Defined.
